(** * pylego.ops: the multilayer LSTM cell and its sequence driver

    A shallow embedding of [MultilayerLSTMCell] and [MultilayerLSTM] of
    [pylego/ops.py].  Tensors are immutable values that carry their torch
    shape next to nested row-major data; Python lists of [(h, c)] tuples are
    modelled twice: as plain lists (the functional reading of the code) and
    as objects in a store (to reason about aliasing and mutation).  A torch
    error (shape mismatch, index out of range, [torch.cat] of nothing) is
    [None].  The input sequence is a rank-3 tensor, a reset signal a rank-2
    tensor and a state a tuple of rank-2 tensors, as the docstrings and the
    comment on the last line of [MultilayerLSTM.forward] have them; the
    operations below are the torch operations at these ranks. *)

From Stdlib Require Import QArith Qcanon SpecFloat.
From stdpp Require Import base option list numbers gmap.

(** ** Scalars

    The element type of a tensor with the operations the two classes use.
    [rgtb x y] is the comparison [x > y] and [reps] the literal [1e-6]. *)

Class Scalar (R : Type) := {
  rzero : R;
  rone : R;
  rsub : R → R → R;
  rmul : R → R → R;
  rgtb : R → R → bool;
  reps : R
}.

(** The arithmetic facts some of the theorems rely on; both hold of IEEE
    floats, [nan] and the infinities included. *)
Class ScalarLaws (R : Type) `{Scalar R} := {
  rmul_sub_one_zero : ∀ x : R, rmul x (rsub rone rzero) = x;
  rgtb_one_eps : rgtb rone reps = true
}.

(** ** Tensors *)

Record Tensor (A : Type) := mkTensor { shape : list nat; data : A }.
Arguments mkTensor {A} _ _.
Arguments shape {A} _.
Arguments data {A} _.

Section ops.
Context {R : Type} `{Scalar R}.

(** Rank-2, rank-3 and rank-4 tensors. *)
Abbreviation T2 := (Tensor (list (list R))).
Abbreviation T3 := (Tensor (list (list (list R)))).
Abbreviation T4 := (Tensor (list (list (list (list R))))).

(** [x[:, t]] for a rank-3 tensor. *)
Definition select1 (x : T3) (t : nat) : option T2 :=
  match shape x with
  | [b; l; n] =>
      guard (t < l);;
      d ← mapM (λ s : list (list R), s !! t) (data x);
      Some (mkTensor [b; n] d)
  | _ => None
  end.

(** [r[:, t, None]] for a rank-2 tensor. *)
Definition select_col (r : T2) (t : nat) : option T2 :=
  match shape r with
  | [b; l] =>
      guard (t < l);;
      d ← mapM (λ s : list R, s !! t) (data r);
      Some (mkTensor [b; 1] ((λ x, [x]) <$> d))
  | _ => None
  end.

(** [torch.cat([a, b], dim=1)] for rank-2 tensors. *)
Definition cat1 (a b : T2) : option T2 :=
  match shape a, shape b with
  | [ba; na], [bb; nb] =>
      guard (ba = bb);;
      Some (mkTensor [ba; na + nb] (zip_with app (data a) (data b)))
  | _, _ => None
  end.

(** [x.new_zeros([b, n])]. *)
Definition new_zeros (b n : nat) : T2 :=
  mkTensor [b; n] (replicate b (replicate n rzero)).

(** [h[:, None, None, :]]. *)
Definition unsqueeze12 (h : T2) : option T4 :=
  match shape h with
  | [b; n] => Some (mkTensor [b; 1; 1; n] ((λ r, [[r]]) <$> data h))
  | _ => None
  end.

(** [torch.cat(ts, dim=2)] and [torch.cat(ts, dim=1)] for rank-4 tensors:
    the list must not be empty and the other dimensions must agree. *)
Definition cat4_dim2 (a b : T4) : option T4 :=
  match shape a, shape b with
  | [ba; la; ka; na], [bb; lb; kb; nb] =>
      guard (ba = bb ∧ la = lb ∧ na = nb);;
      Some (mkTensor [ba; la; ka + kb; na]
              (zip_with (zip_with app) (data a) (data b)))
  | _, _ => None
  end.

Definition cat4_dim1 (a b : T4) : option T4 :=
  match shape a, shape b with
  | [ba; la; ka; na], [bb; lb; kb; nb] =>
      guard (ba = bb ∧ ka = kb ∧ na = nb);;
      Some (mkTensor [ba; la + lb; ka; na] (zip_with app (data a) (data b)))
  | _, _ => None
  end.

Fixpoint cat_from (f : T4 → T4 → option T4) (acc : T4) (ts : list T4)
  : option T4 :=
  match ts with
  | [] => Some acc
  | t :: ts => acc' ← f acc t; cat_from f acc' ts
  end.

Definition cat_list (f : T4 → T4 → option T4) (ts : list T4) : option T4 :=
  match ts with
  | [] => None
  | t :: ts => cat_from f t ts
  end.

(** [torch.any(r > 1e-6)]. *)
Definition any_gt_eps (r : T2) : bool :=
  existsb (existsb (λ x, rgtb x reps)) (data r).

(** [1.0 - r]. *)
Definition one_minus (r : T2) : T2 :=
  mkTensor (shape r) ((λ row : list R, rsub rone <$> row) <$> data r).

(** Broadcasting of one dimension: equal sizes, or one of them is 1. *)
Definition bdim (x y : nat) : option nat :=
  if decide (x = y) then Some x
  else if decide (x = 1) then Some y
  else if decide (y = 1) then Some x
  else None.

Definition expand {A} (have want : nat) (l : list A) : list A :=
  if decide (have = want) then l
  else match l with
       | [x] => replicate want x
       | _ => l
       end.

(** [a * b] for rank-2 tensors, with torch's broadcasting. *)
Definition bmul (a b : T2) : option T2 :=
  match shape a, shape b with
  | [a0; a1], [b0; b1] =>
      r0 ← bdim a0 b0;
      r1 ← bdim a1 b1;
      let da := expand a0 r0 (expand a1 r1 <$> data a) in
      let db := expand b0 r0 (expand b1 r1 <$> data b) in
      Some (mkTensor [r0; r1] (zip_with (zip_with rmul) da db))
  | _, _ => None
  end.

(** ** [torch.nn.LSTMCell]

    The recurrent unit is torch's; it is not part of this repository.  It
    acts on every batch row on its own: [kernel x h c] is what the unit
    computes for one row (its weights are part of the kernel).  The forward
    call checks the shapes as torch does and uses zeros for an absent state. *)

Record LSTMCell := mkLSTMCell {
  cell_input_size : nat;
  cell_hidden_size : nat;
  cell_kernel : list R → list R → list R → list R * list R
}.

Definition LSTMCell_forward (cell : LSTMCell) (x : T2) (hx : option (T2 * T2))
  : option (T2 * T2) :=
  match shape x with
  | [b; n] =>
      let hid := cell_hidden_size cell in
      guard (n = cell_input_size cell);;
      let hc := default (new_zeros b hid, new_zeros b hid) hx in
      guard (shape hc.1 = [b; hid]);;
      guard (shape hc.2 = [b; hid]);;
      let out := zip_with (λ xr s, cell_kernel cell xr s.1 s.2)
                   (data x) (zip (data hc.1) (data hc.2)) in
      Some (mkTensor [b; hid] (out.*1), mkTensor [b; hid] (out.*2))
  | _ => None
  end.

(** ** [MultilayerLSTMCell] *)

Record MultilayerLSTMCell := mkMultilayerLSTMCell {
  hidden_size : nat;
  layers : nat;
  every_layer_input : bool;
  use_previous_higher : bool;
  lstm_cells : list LSTMCell
}.

(** The list [input_sizes] that [__init__] builds. *)
Definition input_sizes (input_size hidden_size layers : nat)
    (every_layer_input use_previous_higher : bool) : list nat :=
  let s0 := input_size :: replicate (layers - 1) hidden_size in
  let s1 :=
    if every_layer_input
    then foldl (λ s i, alter (λ w, w + input_size) i s) s0 (seq 1 (layers - 1))
    else s0 in
  if use_previous_higher
  then foldl (λ s i, alter (λ w, w + hidden_size) i s) s1 (seq 0 (layers - 1))
  else s1.

(** [__init__]; [kernels i] stands for the parameters torch creates for the
    unit of layer [i] (weights, and biases when [bias] is set). *)
Definition MultilayerLSTMCell_init (input_size hidden_size layers : nat)
    (every_layer_input use_previous_higher : bool)
    (kernels : nat → list R → list R → list R → list R * list R)
  : MultilayerLSTMCell :=
  let sizes := input_sizes input_size hidden_size layers
                 every_layer_input use_previous_higher in
  mkMultilayerLSTMCell hidden_size layers every_layer_input use_previous_higher
    ((λ i, mkLSTMCell (default 0 (sizes !! i)) hidden_size (kernels i))
       <$> seq 0 layers).

(** An entry of the list [hx]: [None] or a tuple [(h, c)]. *)
Abbreviation entry := (option (T2 * T2)).

(** The previous hidden state of the layer above, lines 239-242. *)
Definition prev_higher (self : MultilayerLSTMCell) (hx : list entry)
    (layer : nat) (recent : T2) : option T2 :=
  e ← hx !! (layer + 1);
  match e with
  | None => b ← shape recent !! 0; Some (new_zeros b (hidden_size self))
  | Some hc => Some hc.1
  end.

(** Lines 236-237: the raw input again, above layer 0. *)
Definition with_raw_input (self : MultilayerLSTMCell) (input_ : T2)
    (layer : nat) (recent : T2) : option T2 :=
  if bool_decide (0 < layer) && every_layer_input self
  then cat1 recent input_ else Some recent.

(** The input of the unit of [layer], lines 236-243. *)
Definition layer_input (self : MultilayerLSTMCell) (input_ : T2)
    (hx : list entry) (layer : nat) (recent : T2) : option T2 :=
  recent ← with_raw_input self input_ layer recent;
  if bool_decide (layer < layers self - 1) && use_previous_higher self
  then prev ← prev_higher self hx layer recent; cat1 recent prev
  else Some recent.

(** One turn of the loop over the layers, lines 236-244. *)
Definition layer_step (self : MultilayerLSTMCell) (input_ : T2)
    (hx : list entry) (layer : nat) (recent : T2) : option (T2 * T2) :=
  x ← layer_input self input_ hx layer recent;
  cell ← lstm_cells self !! layer;
  e ← hx !! layer;
  LSTMCell_forward cell x e.

Fixpoint layer_loop (self : MultilayerLSTMCell) (input_ : T2)
    (hx : list entry) (ls : list nat) (recent : T2) (outputs : list (T2 * T2))
  : option (list (T2 * T2)) :=
  match ls with
  | [] => Some outputs
  | layer :: ls =>
      out ← layer_step self input_ hx layer recent;
      layer_loop self input_ hx ls out.1 (outputs ++ [out])
  end.

(** [MultilayerLSTMCell.forward] as a function of the contents of [hx]. *)
Definition MultilayerLSTMCell_forward (self : MultilayerLSTMCell)
    (input_ : T2) (hx : option (list entry)) : option (list (T2 * T2)) :=
  let hx := default (replicate (layers self) None) hx in
  layer_loop self input_ hx (seq 0 (layers self)) input_ [].

(** ** [MultilayerLSTM]

    The class has one field, [cell], which [__init__] builds by passing its
    own arguments to [MultilayerLSTMCell]; the argument [cell] of the
    definitions below is [self.cell]. *)

(** Line 266: the hidden outputs of all layers, stacked. *)
Definition stack_hidden (hx : list (T2 * T2)) : option T4 :=
  hs ← mapM (λ hc : T2 * T2, unsqueeze12 hc.1) hx;
  cat_list cat4_dim2 hs.

(** Line 271 for one entry. *)
Definition scale_entry (reset_t : T2) (hc : T2 * T2) : option (T2 * T2) :=
  h ← bmul hc.1 (one_minus reset_t);
  c ← bmul hc.2 (one_minus reset_t);
  Some (h, c).

(** Lines 267-271. *)
Definition apply_reset (reset : option T2) (t : nat) (hx : list (T2 * T2))
  : option (list (T2 * T2)) :=
  match reset with
  | None => Some hx
  | Some reset =>
      reset_t ← select_col reset t;
      if any_gt_eps reset_t then mapM (scale_entry reset_t) hx else Some hx
  end.

(** One turn of the loop over the timesteps: the carried state and the
    outputs so far. *)
Definition time_step (cell : MultilayerLSTMCell) (input_ : T3)
    (reset : option T2) (st : option (list (T2 * T2)) * list T4) (t : nat)
  : option (option (list (T2 * T2)) * list T4) :=
  x ← select1 input_ t;
  hx ← MultilayerLSTMCell_forward cell x
          ((λ l : list (T2 * T2), Some <$> l) <$> st.1);
  o ← stack_hidden hx;
  hx' ← apply_reset reset t hx;
  Some (Some hx', st.2 ++ [o]).

Fixpoint time_loop (cell : MultilayerLSTMCell) (input_ : T3)
    (reset : option T2) (ts : list nat)
    (st : option (list (T2 * T2)) * list T4)
  : option (option (list (T2 * T2)) * list T4) :=
  match ts with
  | [] => Some st
  | t :: ts =>
      st' ← time_step cell input_ reset st t;
      time_loop cell input_ reset ts st'
  end.

(** The loop after its first [t] turns. *)
Definition run_to (cell : MultilayerLSTMCell) (input_ : T3)
    (reset : option T2) (t : nat)
  : option (option (list (T2 * T2)) * list T4) :=
  time_loop cell input_ reset (seq 0 t) (None, []).

(** The state carried into timestep [t] ([None] for the absent state). *)
Definition carried (cell : MultilayerLSTMCell) (input_ : T3)
    (reset : option T2) (t : nat) : option (option (list (T2 * T2))) :=
  fst <$> run_to cell input_ reset t.

(** The stack the cell returns at timestep [t], before any reset. *)
Definition new_stack (cell : MultilayerLSTMCell) (input_ : T3)
    (reset : option T2) (t : nat) : option (list (T2 * T2)) :=
  st ← carried cell input_ reset t;
  x ← select1 input_ t;
  MultilayerLSTMCell_forward cell x
    ((λ l : list (T2 * T2), Some <$> l) <$> st).

(** [MultilayerLSTM.forward]. *)
Definition MultilayerLSTM_forward (cell : MultilayerLSTMCell) (input_ : T3)
    (reset : option T2) : option T4 :=
  l ← shape input_ !! 1;
  st ← time_loop cell input_ reset (seq 0 l) (None, []);
  cat_list cat4_dim1 st.2.

(** ** The two classes over a store of list objects

    [MultilayerLSTMCell.forward] builds a new Python list and returns it;
    [MultilayerLSTM.forward] then assigns into that very list (line 271).
    Here a list of entries is an object in a store, named by its location;
    tensors stay values, as no line updates a tensor in place. *)

Abbreviation loc := positive.
Abbreviation store := (gmap loc (list entry)).

Definition M (A : Type) : Type := store → option (A * store).

#[export] Instance M_ret : MRet M := λ A a σ, Some (a, σ).
#[export] Instance M_bind : MBind M := λ A B f m σ,
  match m σ with
  | Some (a, σ') => f a σ'
  | None => None
  end.

(** A pure (possibly failing) computation. *)
Definition lift {A} (o : option A) : M A := λ σ, a ← o; Some (a, σ).

(** A new list object. *)
Definition alloc (l : list entry) : M loc := λ σ,
  let p := fresh (dom σ) in Some (p, <[p := l]> σ).

(** [p[i]]. *)
Definition read_item (p : loc) (i : nat) : M entry := λ σ,
  l ← σ !! p; e ← l !! i; Some (e, σ).

(** [list(p)], the items at this moment. *)
Definition read_list (p : loc) : M (list entry) := λ σ,
  l ← σ !! p; Some (l, σ).

(** [p.append(e)]. *)
Definition append (p : loc) (e : entry) : M unit := λ σ,
  l ← σ !! p; Some ((), <[p := l ++ [e]]> σ).

(** [p[i] = e]. *)
Definition write_item (p : loc) (i : nat) (e : entry) : M unit := λ σ,
  l ← σ !! p; guard (i < length l);; Some ((), <[p := <[i := e]> l]> σ).

Definition layer_input_st (self : MultilayerLSTMCell) (input_ : T2)
    (hx : loc) (layer : nat) (recent : T2) : M T2 :=
  recent ← lift (with_raw_input self input_ layer recent);
  if bool_decide (layer < layers self - 1) && use_previous_higher self
  then
    e ← read_item hx (layer + 1);
    prev ← lift (match e with
                 | None => b ← shape recent !! 0;
                           Some (new_zeros b (hidden_size self))
                 | Some hc => Some hc.1
                 end);
    lift (cat1 recent prev)
  else mret recent.

Definition layer_step_st (self : MultilayerLSTMCell) (input_ : T2)
    (hx : loc) (layer : nat) (recent : T2) : M (T2 * T2) :=
  x ← layer_input_st self input_ hx layer recent;
  cell ← lift (lstm_cells self !! layer);
  e ← read_item hx layer;
  lift (LSTMCell_forward cell x e).

Fixpoint layer_loop_st (self : MultilayerLSTMCell) (input_ : T2)
    (hx outputs : loc) (ls : list nat) (recent : T2) : M unit :=
  match ls with
  | [] => mret ()
  | layer :: ls =>
      out ← layer_step_st self input_ hx layer recent;
      append outputs (Some out);;
      layer_loop_st self input_ hx outputs ls out.1
  end.

(** [MultilayerLSTMCell.forward] on list objects. *)
Definition MultilayerLSTMCell_forward_st (self : MultilayerLSTMCell)
    (input_ : T2) (hx : option loc) : M loc :=
  hx ← match hx with
       | None => alloc (replicate (layers self) None)
       | Some p => mret p
       end;
  outputs ← alloc [];
  layer_loop_st self input_ hx outputs (seq 0 (layers self)) input_;;
  mret outputs.

(** Lines 270-271: [for i, (h, c) in enumerate(hx): hx[i] = ...]. *)
Fixpoint reset_loop_st (hx : loc) (reset_t : T2) (ix : list nat) : M unit :=
  match ix with
  | [] => mret ()
  | i :: ix =>
      e ← read_item hx i;
      hc ← lift e;
      hc' ← lift (scale_entry reset_t hc);
      write_item hx i (Some hc');;
      reset_loop_st hx reset_t ix
  end.

Definition apply_reset_st (reset : option T2) (t : nat) (hx : loc) : M unit :=
  match reset with
  | None => mret ()
  | Some reset =>
      reset_t ← lift (select_col reset t);
      if any_gt_eps reset_t
      then items ← read_list hx;
           reset_loop_st hx reset_t (seq 0 (length items))
      else mret ()
  end.

Definition time_step_st (cell : MultilayerLSTMCell) (input_ : T3)
    (reset : option T2) (st : option loc * list T4) (t : nat)
  : M (option loc * list T4) :=
  x ← lift (select1 input_ t);
  hx ← MultilayerLSTMCell_forward_st cell x st.1;
  items ← read_list hx;
  pairs ← lift (mapM (λ e : entry, e) items);
  o ← lift (stack_hidden pairs);
  apply_reset_st reset t hx;;
  mret (Some hx, st.2 ++ [o]).

Fixpoint time_loop_st (cell : MultilayerLSTMCell) (input_ : T3)
    (reset : option T2) (ts : list nat) (st : option loc * list T4)
  : M (option loc * list T4) :=
  match ts with
  | [] => mret st
  | t :: ts =>
      st' ← time_step_st cell input_ reset st t;
      time_loop_st cell input_ reset ts st'
  end.

(** [MultilayerLSTM.forward] on list objects. *)
Definition MultilayerLSTM_forward_st (cell : MultilayerLSTMCell)
    (input_ : T3) (reset : option T2) : M T4 :=
  l ← lift (shape input_ !! 1);
  st ← time_loop_st cell input_ reset (seq 0 l) (None, []);
  lift (cat_list cat4_dim1 st.2).

(** The store model and the functional reading of the loop state. *)
Definition st_rel (σ : store) (s : option loc * list T4)
    (s' : option (list (T2 * T2)) * list T4) : Prop :=
  s.2 = s'.2
  ∧ match s.1, s'.1 with
    | None, None => True
    | Some p, Some hx => σ !! p = Some (Some <$> hx)
    | _, _ => False
    end.

Definition res_rel (a : option ((option loc * list T4) * store))
    (b : option (option (list (T2 * T2)) * list T4)) : Prop :=
  match a, b with
  | Some (r, σ), Some r' => st_rel σ r r'
  | None, None => True
  | _, _ => False
  end.

(** ** A single LSTM unit stepped over a sequence

    The reference behaviour for a one-layer configuration: one unit, its
    [(h, c)] carried from step to step (through the driver's reset rule),
    the hidden output of each step emitted. *)

Fixpoint single_loop (unit_ : LSTMCell) (input_ : T3) (reset : option T2)
    (ts : list nat) (s : option (T2 * T2)) (outputs : list T4)
  : option (list T4) :=
  match ts with
  | [] => Some outputs
  | t :: ts =>
      x ← select1 input_ t;
      hc ← LSTMCell_forward unit_ x s;
      o ← unsqueeze12 hc.1;
      hc' ← (match reset with
             | None => Some hc
             | Some reset =>
                 reset_t ← select_col reset t;
                 if any_gt_eps reset_t then scale_entry reset_t hc else Some hc
             end);
      single_loop unit_ input_ reset ts (Some hc') (outputs ++ [o])
  end.

Definition single_lstm_run (unit_ : LSTMCell) (input_ : T3)
    (reset : option T2) : option T4 :=
  l ← shape input_ !! 1;
  outputs ← single_loop unit_ input_ reset (seq 0 l) None [];
  cat_list cat4_dim1 outputs.

(** Reading an element of nested data: [d[i][t]] and [d[i][t][k]]. *)
Definition at2 {A} (d : list (list A)) (i t : nat) : option A :=
  d !! i ≫= (λ s, s !! t).

Definition at3 {A} (d : list (list (list A))) (i t k : nat) : option A :=
  at2 d i t ≫= (λ s, s !! k).

(** Every row [i] of [h] multiplied by [1 - col[i]]. *)
Definition scale_rows (col : list R) (h : T2) : T2 :=
  mkTensor (shape h)
    (zip_with (λ (row : list R) (x : R), (λ v, rmul v (rsub rone x)) <$> row)
       (data h) col).

Definition scale_state (col : list R) (hc : T2 * T2) : T2 * T2 :=
  (scale_rows col hc.1, scale_rows col hc.2).

(** The values [reset[i, t]] over the batch. *)
Definition reset_col (reset : T2) (t : nat) : list R :=
  default [] (mapM (λ s : list R, s !! t) (data reset)).

Definition col_any_gt (col : list R) : bool :=
  existsb (λ x, rgtb x reps) col.

(** What lines 267-271 make of the stack [hx] at timestep [t]. *)
Definition reset_rule (reset : option T2) (t : nat) (hx : list (T2 * T2))
  : list (T2 * T2) :=
  match reset with
  | None => hx
  | Some reset =>
      if col_any_gt (reset_col reset t)
      then scale_state (reset_col reset t) <$> hx
      else hx
  end.

(** ** Shapes and well-formed configurations *)

Definition rect2 (b n : nat) (d : list (list R)) : Prop :=
  length d = b ∧ Forall (λ r, length r = n) d.

Definition rect3 (b l n : nat) (d : list (list (list R))) : Prop :=
  length d = b ∧ Forall (rect2 l n) d.

Definition rect4 (b l k n : nat) (d : list (list (list (list R)))) : Prop :=
  length d = b ∧ Forall (rect3 l k n) d.

Definition has_shape2 (b n : nat) (x : T2) : Prop :=
  shape x = [b; n] ∧ rect2 b n (data x).

Definition has_shape3 (b l n : nat) (x : T3) : Prop :=
  shape x = [b; l; n] ∧ rect3 b l n (data x).

Definition has_shape4 (b l k n : nat) (x : T4) : Prop :=
  shape x = [b; l; k; n] ∧ rect4 b l k n (data x).

(** A tuple [(h, c)] of tensors shaped [[b, hid]]. *)
Definition state_ok (b hid : nat) (hc : T2 * T2) : Prop :=
  has_shape2 b hid hc.1 ∧ has_shape2 b hid hc.2.

Definition entry_ok (b hid : nat) (e : entry) : Prop :=
  match e with
  | None => True
  | Some hc => state_ok b hid hc
  end.

(** The argument [hx] of the cell: absent, or a list of [layers] entries. *)
Definition hx_ok (b hid layers : nat) (hx : option (list entry)) : Prop :=
  match hx with
  | None => True
  | Some l => length l = layers ∧ Forall (entry_ok b hid) l
  end.

(** The kernel of a unit returns vectors of the hidden width. *)
Definition kernel_ok (n hid : nat)
    (k : list R → list R → list R → list R * list R) : Prop :=
  ∀ x h c, length x = n → length h = hid → length c = hid →
    length (k x h c).1 = hid ∧ length (k x h c).2 = hid.

(** The width of what the unit of layer [i] is fed. *)
Definition layer_width (input_size hidden_size layers : nat)
    (every_layer_input use_previous_higher : bool) (i : nat) : nat :=
  (if decide (i = 0) then input_size
   else hidden_size + (if every_layer_input then input_size else 0))
  + (if use_previous_higher && bool_decide (i < layers - 1)
     then hidden_size else 0).

Definition reset_ok (b l : nat) (reset : option T2) : Prop :=
  match reset with
  | None => True
  | Some r => has_shape2 b l r
  end.

(** What holds of the state of the loop over the timesteps after [t]
    turns: the carried stack and the outputs collected so far. *)
Definition loop_inv (b hid L t : nat)
    (st : option (list (T2 * T2)) * list T4) : Prop :=
  match st.1 with
  | None => t = 0
  | Some hx => 0 < t ∧ length hx = L ∧ Forall (state_ok b hid) hx
  end
  ∧ length st.2 = t ∧ Forall (has_shape4 b 1 L hid) st.2.

(** Agreement of two tensors, tuples, entries and stacks on batch row [i]. *)
Definition row_eq (i : nat) (x y : T2) : Prop := data x !! i = data y !! i.

Definition state_eq (i : nat) (hc1 hc2 : T2 * T2) : Prop :=
  row_eq i hc1.1 hc2.1 ∧ row_eq i hc1.2 hc2.2.

Definition entry_eq (i : nat) (e1 e2 : entry) : Prop :=
  option_Forall2 (state_eq i) e1 e2.

Definition stack_eq (i : nat) (s1 s2 : list (T2 * T2)) : Prop :=
  Forall2 (state_eq i) s1 s2.

(** Two input sequences with the same timesteps up to [t], and two reset
    signals with the same timesteps before [t]. *)
Definition inputs_agree_upto (t : nat) (input1 input2 : T3) : Prop :=
  ∀ t', t' ≤ t → select1 input1 t' = select1 input2 t'.

Definition resets_agree_before (t : nat) (reset1 reset2 : option T2) : Prop :=
  match reset1, reset2 with
  | None, None => True
  | Some r1, Some r2 => ∀ t', t' < t → select_col r1 t' = select_col r2 t'
  | _, _ => False
  end.

(** A value that multiplication by [1.0 - 1.0] takes to [rzero], as line
    271 does to the state of an element whose reset is [1.0].  In floats
    the product of a finite value is a zero (0.0, or -0.0 for a negative
    value); that of [nan] and of an infinity is [nan]. *)
Definition zeroed_by_one (x : R) : Prop := rmul x (rsub rone rone) = rzero.

Definition kernels_ok (input_size hidden_size layers : nat)
    (every_layer_input use_previous_higher : bool)
    (kernels : nat → list R → list R → list R → list R * list R) : Prop :=
  ∀ i, i < layers →
    kernel_ok (layer_width input_size hidden_size layers
                 every_layer_input use_previous_higher i)
      hidden_size (kernels i).

End ops.

(** ** Rational scalars and small configurations, for concrete runs *)

#[export] Instance Qc_scalar : Scalar Qc := {|
  rzero := 0%Qc;
  rone := 1%Qc;
  rsub := Qcminus;
  rmul := Qcmult;
  rgtb x y := match Qcompare (this x) (this y) with Gt => true | _ => false end;
  reps := Q2Qc (Qmake 1 1000000)
|}.

(** A rational number [n / d]. *)
Definition qc (n : Z) (d : positive) : Qc := Q2Qc (Qmake n d).

(** A stand-in for the parameters of a unit, with constant gates and linear
    activations: [c' = c + (sum x + sum h)] and [h' = c' / 2]. *)
Definition affine_kernel (_ : nat) (x h c : list Qc) : list Qc * list Qc :=
  let g := (foldr Qcplus 0 x + foldr Qcplus 0 h)%Qc in
  let c' := (λ v, v + g)%Qc <$> c in
  ((λ v, v * qc 1 2)%Qc <$> c', c').

(** Two layers, both options set; batch 2, length 3, [input_size] 3,
    [hidden_size] 4, and [reset[0, 1] = 1]. *)
Definition demo_cell : MultilayerLSTMCell :=
  MultilayerLSTMCell_init 3 4 2 true true affine_kernel.

Definition demo_input : Tensor (list (list (list Qc))) :=
  mkTensor [2; 3; 3]
    [ [ [qc 1 1; qc 2 1; qc 3 1]; [qc 0 1; qc 1 1; qc 0 1];
        [qc 1 1; qc 1 1; qc 1 1] ];
      [ [qc 2 1; qc 0 1; qc 1 1]; [qc 1 1; qc 1 1; qc 0 1];
        [qc 0 1; qc 0 1; qc 1 1] ] ].

Definition demo_reset : Tensor (list (list Qc)) :=
  mkTensor [2; 3] [ [qc 0 1; qc 1 1; qc 0 1]; [qc 0 1; qc 0 1; qc 0 1] ].

(** The same reset for element 0, another one for element 1. *)
Definition demo_reset_other : Tensor (list (list Qc)) :=
  mkTensor [2; 3] [ [qc 0 1; qc 1 1; qc 0 1]; [qc 1 1; qc 0 1; qc 1 1] ].

(** The input of timestep 0, [demo_input[:, 0]]. *)
Definition demo_x0 : Tensor (list (list Qc)) :=
  mkTensor [2; 3] [ [qc 1 1; qc 2 1; qc 3 1]; [qc 2 1; qc 0 1; qc 1 1] ].

(** A store with one list object, two entries [None], at location 1. *)
Definition demo_hx
  : list (option (Tensor (list (list Qc)) * Tensor (list (list Qc)))) :=
  [None; None].

Definition demo_store
  : gmap positive
      (list (option (Tensor (list (list Qc)) * Tensor (list (list Qc))))) :=
  {[ 1%positive := demo_hx ]}.

(** One layer of width 1; batch 2, length 2. *)
Definition small_cell : MultilayerLSTMCell :=
  MultilayerLSTMCell_init 1 1 1 false false affine_kernel.

Definition small_input : Tensor (list (list (list Qc))) :=
  mkTensor [2; 2; 1] [ [ [qc 1 1]; [qc 1 1] ]; [ [qc 1 1]; [qc 1 1] ] ].

(** [reset[0, 0] = 0.5]: above the threshold, and not 1. *)
Definition half_reset : Tensor (list (list Qc)) :=
  mkTensor [2; 2] [ [qc 1 2; qc 0 1]; [qc 0 1; qc 0 1] ].

(** Two resets that agree on element 0, whose value [1e-7] at timestep 0 is
    positive and below the threshold; element 1 is reset in the first only. *)
Definition tiny_reset_a : Tensor (list (list Qc)) :=
  mkTensor [2; 2] [ [qc 1 10000000; qc 0 1]; [qc 1 1; qc 0 1] ].

Definition tiny_reset_b : Tensor (list (list Qc)) :=
  mkTensor [2; 2] [ [qc 1 10000000; qc 0 1]; [qc 0 1; qc 0 1] ].

(** ** [ResBlock] and [ResNet]: the modules the constructors build

    The constructors are integer and list code around calls of torch
    module constructors.  A module is recorded by the arguments it is built
    with, and a constructor that raises is [None].  The callables [norm]
    and [nonlinearity] are taken at their defaults ([None] and [F.elu]);
    the flags [skip_last_norm] and [eps] are handed unchanged to every
    block, raise nowhere, and are left out.  Python integers are [Z]. *)

(** What [nn.Conv2d] stores of its arguments. *)
Record Conv2d := mkConv2d {
  in_channels : Z;
  out_channels : Z;
  kernel_size : Z;
  conv_stride : Z;
  padding : Z
}.

(** [nn.Conv2d(in_channels, out_channels, kernel_size, stride, padding)]:
    the constructor allocates a weight of [out_channels] times
    [in_channels] kernels, which torch refuses for a negative count. *)
Definition Conv2d_init (c_in c_out k stride pad : Z) : option Conv2d :=
  guard (0 ≤ c_in ∧ 0 ≤ c_out)%Z;;
  Some (mkConv2d c_in c_out k stride pad).

(** The module [rescale] of [_make_layer]: an [nn.Sequential] of an
    [Upsample] (when the stride is negative), a 1x1 convolution and the
    norm.  [None] stands for no [Upsample]. *)
Record Rescale := mkRescale {
  rs_upsample : option Z;
  rs_conv : Conv2d
}.

(** [ResBlock.expansion]. *)
Definition expansion : Z := 1.

(** What [ResBlock.__init__] stores: [upsample] ([None] for [Identity],
    otherwise the scale factor), the two convolutions, [rescale], [final]
    and [stride]; [layer_index] scales the initial weights of [conv1]. *)
Record ResBlock := mkResBlock {
  rb_final : bool;
  rb_upsample : option Z;
  rb_conv1 : Conv2d;
  rb_conv2 : Conv2d;
  rb_rescale : option Rescale;
  rb_stride : Z;
  rb_layer_index : Z
}.

(** [ResBlock.__init__], lines 80-111.  Line 107 draws the weights of
    [conv1] with standard deviation
    [(layer_index ** (-0.5)) * np.sqrt(2. / n)]: [0 ** (-0.5)] and [2. / 0]
    raise [ZeroDivisionError], and a negative [layer_index] gives a complex
    number, which [normal_] refuses. *)
Definition ResBlock_init (inplanes planes stride : Z)
    (rescale : option Rescale) (final : bool) (layer_index : Z)
  : option ResBlock :=
  let upsample := if bool_decide (stride < 0)%Z then Some (- stride)%Z
                  else None in
  let stride := if bool_decide (stride < 0)%Z then 1%Z else stride in
  conv1 ← Conv2d_init inplanes planes 3 stride 1;
  conv2 ← Conv2d_init planes planes 3 1 1;
  let n := (kernel_size conv1 * kernel_size conv1 * out_channels conv1)%Z in
  guard (0 < layer_index)%Z;;
  guard (n ≠ 0)%Z;;
  Some (mkResBlock final upsample conv1 conv2 rescale stride layer_index).

(** [ResNet._make_layer], lines 161-197, for [block = ResBlock]: the blocks
    of the layer and the new value of [self.inplanes].  Line 183 divides by
    [n] as line 107 does. *)
Definition make_layer (self_inplanes planes blocks stride : Z) (final : bool)
    (layer_index : Z) : option (list ResBlock * Z) :=
  rescale ←
    (if bool_decide (stride ≠ 1 ∨ self_inplanes ≠ planes * expansion)%Z
     then
       rs ← (if bool_decide (stride < 0)%Z
             then conv ← Conv2d_init self_inplanes (planes * expansion)
                           1 1 0;
                  Some (mkRescale (Some (- stride)%Z) conv)
             else conv ← Conv2d_init self_inplanes (planes * expansion)
                           1 stride 0;
                  Some (mkRescale None conv));
       let n := (kernel_size (rs_conv rs) * kernel_size (rs_conv rs)
                 * out_channels (rs_conv rs))%Z in
       guard (n ≠ 0)%Z;;
       Some (Some rs)
     else Some None);
  let layer_final := final && bool_decide (blocks = 1)%Z in
  first ← ResBlock_init self_inplanes planes stride rescale layer_final
            layer_index;
  let self_inplanes := (planes * expansion)%Z in
  rest ← mapM (λ i : Z, ResBlock_init self_inplanes planes 1 None
                          (final && bool_decide (i = blocks - 1)%Z)
                          (layer_index + i)%Z)
         (seqZ 1 (blocks - 1));
  Some (first :: rest, self_inplanes).

(** The loop of [ResNet.__init__], lines 149-153, over the tuples
    [(layer_size, inplanes, stride)] from position [i] on ([n] is
    [len(layers)]). *)
Fixpoint ResNet_layers (n i : nat) (layers : list (Z * Z * Z))
    (self_inplanes layer_index : Z) : option (list (list ResBlock) * Z) :=
  match layers with
  | [] => Some ([], self_inplanes)
  | (layer_size, planes, stride) :: layers =>
      let final := bool_decide (i = n - 1) in
      made ← make_layer self_inplanes planes layer_size stride final
               layer_index;
      more ← ResNet_layers n (S i) layers made.2
               (layer_index + layer_size)%Z;
      Some (made.1 :: more.1, more.2)
  end.

(** [ResNet.__init__]: [self.layers] and the final [self.inplanes]. *)
Definition ResNet_init (inplanes : Z) (layers : list (Z * Z * Z))
    (previous_blocks : Z) : option (list (list ResBlock) * Z) :=
  ResNet_layers (length layers) 0 layers inplanes (1 + previous_blocks)%Z.

(** All blocks of a network, in the order [forward] applies them. *)
Definition ResNet_blocks (net : list (list ResBlock) * Z) : list ResBlock :=
  concat net.1.





(** Layers of sizes -1 and 1, built after 5 earlier blocks. *)
Definition demo_shrinking_layers : list (Z * Z * Z) :=
  [ (-1, 16, 1); (1, 16, 1) ]%Z.

(** A reset whose values stay at or below [1e-6], and an input that
    differs from [demo_input] at the last timestep only. *)
Definition demo_low_reset : Tensor (list (list Qc)) :=
  mkTensor [2; 3]
    [ [qc 0 1; qc 1 1000000; qc 0 1]; [qc (-1) 1; qc 0 1; qc 1 2000000] ].

Definition demo_input_late : Tensor (list (list (list Qc))) :=
  mkTensor [2; 3; 3]
    [ [ [qc 1 1; qc 2 1; qc 3 1]; [qc 0 1; qc 1 1; qc 0 1];
        [qc 5 1; qc 5 1; qc 5 1] ];
      [ [qc 2 1; qc 0 1; qc 1 1]; [qc 1 1; qc 1 1; qc 0 1];
        [qc 7 1; qc 7 1; qc 7 1] ] ].

(** A reset that agrees with [demo_reset] at timestep 0 only. *)
Definition demo_reset_late : Tensor (list (list Qc)) :=
  mkTensor [2; 3] [ [qc 0 1; qc 0 1; qc 1 1]; [qc 0 1; qc 1 1; qc 0 1] ].

(** ** The probability utilities

    [reparameterize_gaussian] and [kl_div_gaussian] are elementwise float
    arithmetic on tensors, modelled here on rank-1 tensors (lists).  The
    element type and its arithmetic are an interface, so that the
    definitions assume nothing of the arithmetic; [IEEE_float] below is
    binary floating point.  A torch error is [None]. *)

Class FloatOps (F : Type) := {
  f_zero : F;
  f_one : F;
  f_half : F;
  f_neg_half : F;
  f_add : F → F → F;
  f_sub : F → F → F;
  f_mul : F → F → F;
  f_div : F → F → F;
  (** [x ** 2] *)
  f_square : F → F;
  (** [torch.exp] at one element *)
  f_exp : F → F;
  (** [t.sum(dim=-1)]: the order of the additions is torch's own *)
  f_sum : list F → F;
  (** the truth value of a tensor of one element: [x != 0] *)
  f_nonzero : F → bool
}.

Section gaussian.
Context {F : Type} `{FloatOps F}.

(** An elementwise binary operation on rank-1 tensors, with broadcasting:
    equal sizes, or one of the sizes is 1. *)
Definition broadcast (f : F → F → F) (a b : list F) : option (list F) :=
  if decide (length a = length b) then Some (zip_with f a b)
  else match a, b with
       | [x], _ => Some (f x <$> b)
       | _, [y] => Some ((λ x, f x y) <$> a)
       | _, _ => None
       end.

(** [a.add_(b)]: in place, so [b] is broadcast to the shape of [a] and not
    the other way round. *)
Definition add_ (a b : list F) : option (list F) :=
  if decide (length b = length a) then Some (zip_with f_add a b)
  else match b with
       | [y] => Some ((λ x, f_add x y) <$> a)
       | _ => None
       end.

(** [reparameterize_gaussian], lines 290-300.  [noise i] stands for the
    [i]-th number that [torch.randn_like] draws. *)
Definition reparameterize_gaussian (noise : nat → F)
    (mu logvar : list F) (sample return_eps : bool)
  : option (list F * option (list F)) :=
  let std := (λ v, f_exp (f_mul f_half v)) <$> logvar in
  let eps := if sample then noise <$> seq 0 (length std)
             else (λ _, f_zero) <$> std in
  ret ← add_ (zip_with f_mul eps std) mu;
  Some (ret, if return_eps then Some eps else None).

(** [p or zero] for an optional tensor [p]: Python asks for the truth value
    of a tensor that is not [None], and torch gives one only to a tensor
    of exactly one element. *)
Definition tensor_or (p : option (list F)) (zero : list F)
  : option (list F) :=
  match p with
  | None => Some zero
  | Some [v] => Some (if f_nonzero v then [v] else zero)
  | Some _ => None
  end.

(** [kl_div_gaussian], lines 303-311. *)
Definition kl_div_gaussian (q_mu q_logvar : list F)
    (p_mu p_logvar : option (list F)) : option F :=
  p ← match p_mu, p_logvar with
      | Some m, Some lv => Some (m, lv)
      | _, _ =>
          let zero := [f_zero] in
          m ← tensor_or p_mu zero;
          lv ← tensor_or p_logvar zero;
          Some (m, lv)
      end;
  logvar_diff ← broadcast f_sub q_logvar p.2;
  d ← broadcast f_sub q_mu p.1;
  t ← broadcast f_div (f_square <$> d) (f_exp <$> p.2);
  s ← broadcast f_sub (f_add f_one <$> logvar_diff) (f_exp <$> logvar_diff);
  u ← broadcast f_sub s t;
  Some (f_sum (f_mul f_neg_half <$> u)).

End gaussian.

(** Binary floating point with precision [prec] and exponent bound [emax]
    (24 and 128 for torch's default [float32]), as [SpecFloat] defines it.
    [torch.exp] and the order in which [sum] adds are left open. *)
Definition IEEE_float (prec emax : Z) (exp : spec_float → spec_float)
    (sum : list spec_float → spec_float) : FloatOps spec_float := {|
  f_zero := S754_zero false;
  f_one := binary_normalize prec emax 1 0 false;
  f_half := binary_normalize prec emax 1 (-1) false;
  f_neg_half := binary_normalize prec emax (-1) (-1) false;
  f_add := SFadd prec emax;
  f_sub := SFsub prec emax;
  f_mul := SFmul prec emax;
  f_div := SFdiv prec emax;
  f_square := λ x, SFmul prec emax x x;
  f_exp := exp;
  f_sum := sum;
  f_nonzero := λ x, negb (SFeqb x (S754_zero false))
|}.

(** A float that is neither [nan] nor an infinity. *)
Definition is_finite (x : spec_float) : bool :=
  match x with
  | S754_zero _ | S754_finite _ _ _ => true
  | _ => false
  end.

(** A zero of either sign. *)
Definition is_zero (x : spec_float) : bool :=
  match x with
  | S754_zero _ => true
  | _ => false
  end.

(** A float that is neither a zero nor [nan]. *)
Definition is_nonzero (x : spec_float) : bool :=
  match x with
  | S754_finite _ _ _ | S754_infinity _ => true
  | _ => false
  end.

(** Equal as numbers: the same float, or the two zeros. *)
Definition same_number (x y : spec_float) : Prop :=
  x = y ∨ (∃ s s', x = S754_zero s ∧ y = S754_zero s').

(** [float32] for the concrete runs.  [exp_at_zero] is [exp] where the
    runs need it, at 0; the sum adds from the left. *)
Definition exp_at_zero (x : spec_float) : spec_float :=
  match x with
  | S754_zero _ => binary_normalize 24 128 1 0 false
  | _ => S754_nan
  end.

Definition float32 : FloatOps spec_float :=
  IEEE_float 24 128 exp_at_zero (foldl (SFadd 24 128) (S754_zero false)).

(** The number [m * 2 ^ e] in [float32]. *)
Definition f32 (m e : Z) : spec_float := binary_normalize 24 128 m e false.

(** [float32] as the scalars of the recurrent classes; [reps] is the
    [float32] nearest to [1e-6]. *)
Definition float32_scalar : Scalar spec_float := {|
  rzero := S754_zero false;
  rone := f32 1 0;
  rsub := SFsub 24 128;
  rmul := SFmul 24 128;
  rgtb := λ x y, SFltb y x;
  reps := S754_finite false 8796093 (-43)
|}.

(** * Properties *)

Section props.
Context {R : Type} `{Scalar R}.

Abbreviation T2 := (Tensor (list (list R))).
Abbreviation T3 := (Tensor (list (list (list R)))).
Abbreviation T4 := (Tensor (list (list (list (list R))))).
Abbreviation entry := (option (T2 * T2)).

(** ** The widths set up by [__init__] *)

Lemma foldl_alter_seq (f : nat → nat) (n a : nat) (s : list nat) (j : nat) :
  foldl (λ s i, alter f i s) s (seq a n) !! j
  = if bool_decide (a ≤ j < a + n) then f <$> s !! j else s !! j.
Proof.
  revert a s. induction n as [|n IH]; intros a s; simpl.
  - rewrite bool_decide_false by lia. done.
  - rewrite IH. destruct (decide (j = a)) as [->|Hne].
    + rewrite bool_decide_false by lia. rewrite bool_decide_true by lia.
      by rewrite list_lookup_alter_eq.
    + rewrite list_lookup_alter_ne by done.
      destruct (decide (a ≤ j < a + S n)).
      * by rewrite !bool_decide_true by lia.
      * by rewrite !bool_decide_false by lia.
Qed.

Lemma input_sizes_lookup input_size hidden layers_ eli uph i :
  1 ≤ layers_ → i < layers_ →
  input_sizes input_size hidden layers_ eli uph !! i
  = Some (layer_width input_size hidden layers_ eli uph i).
Proof.
  intros Hl Hi. unfold input_sizes, layer_width.
  assert (Hbase : (input_size :: replicate (layers_ - 1) hidden) !! i
                  = Some (if decide (i = 0) then input_size else hidden)).
  { destruct i as [|i]; [done|]. simpl.
    rewrite lookup_replicate_2 by lia. done. }
  destruct uph, eli; simpl;
    rewrite ?foldl_alter_seq, ?Hbase; simpl;
    repeat case_bool_decide; repeat case_decide; simpl; f_equal; lia.
Qed.

(** ** Tensor operations on well-shaped arguments *)

Lemma mapM_lookup_rect {A} (xs : list (list A)) (l t : nat) :
  Forall (λ s, length s = l) xs → t < l →
  ∃ d, mapM (λ s : list A, s !! t) xs = Some d ∧ length d = length xs
       ∧ ∀ i, d !! i = xs !! i ≫= (λ s, s !! t).
Proof.
  intros Hall Ht. induction Hall as [|s xs Hs _ IH].
  - exists []. split; [done|]. split; [done|]. by intros [|i].
  - destruct IH as (d & Hd & Hlen & Hlk).
    destruct (lookup_lt_is_Some_2 s t) as [v Hv]; [lia|].
    exists (v :: d). simpl. rewrite Hv. simpl. rewrite Hd. simpl.
    split; [done|]. split; [by rewrite Hlen|].
    intros [|i]; simpl; [done|apply Hlk].
Qed.

Lemma select1_spec (x : T3) (b l n t : nat) :
  has_shape3 b l n x → t < l →
  ∃ d, select1 x t = Some (mkTensor [b; n] d) ∧ rect2 b n d
       ∧ ∀ i, d !! i = data x !! i ≫= (λ s, s !! t).
Proof.
  intros [Hs [Hlen Hall]] Ht. unfold select1. rewrite Hs.
  destruct (mapM_lookup_rect (data x) l t) as (d & Hd & Hdl & Hlk); [|done|].
  { eapply Forall_impl; [exact Hall|]. by intros s [? _]. }
  exists d. rewrite option_guard_True by done. rewrite Hd. simpl.
  split; [done|]. split; [|done]. split; [lia|].
  apply Forall_lookup. intros i r Hr. rewrite Hlk in Hr.
  destruct (data x !! i) as [s|] eqn:Hi; [|done]. simpl in Hr.
  rewrite Forall_lookup in Hall. destruct (Hall i s Hi) as [_ Hrows].
  rewrite Forall_lookup in Hrows. eauto.
Qed.

Lemma select_col_spec (r : T2) (b l t : nat) :
  has_shape2 b l r → t < l →
  ∃ col, select_col r t = Some (mkTensor [b; 1] ((λ x, [x]) <$> col))
         ∧ length col = b ∧ ∀ i, col !! i = data r !! i ≫= (λ s, s !! t).
Proof.
  intros [Hs [Hlen Hall]] Ht. unfold select_col. rewrite Hs.
  destruct (mapM_lookup_rect (data r) l t) as (d & Hd & Hdl & Hlk); [done..|].
  exists d. rewrite option_guard_True by done. rewrite Hd. simpl.
  split; [done|]. split; [lia|done].
Qed.

Lemma new_zeros_shape (b n : nat) : has_shape2 b n (new_zeros b n).
Proof.
  split; [done|]. split; simpl; [by rewrite length_replicate|].
  apply Forall_replicate. by rewrite length_replicate.
Qed.

Lemma cat1_spec (a c : T2) (b n m : nat) :
  has_shape2 b n a → has_shape2 b m c →
  ∃ o, cat1 a c = Some o ∧ has_shape2 b (n + m) o
       ∧ data o = zip_with app (data a) (data c).
Proof.
  intros [Hsa [Hla Ha]] [Hsc [Hlc Hc]]. unfold cat1. rewrite Hsa, Hsc.
  rewrite option_guard_True by done. eexists. split; [done|].
  split; [|done]. split; [done|]. simpl. split.
  - rewrite length_zip_with. lia.
  - apply Forall_lookup. intros i r Hr.
    apply lookup_zip_with_Some in Hr as (u & v & -> & Hu & Hv).
    rewrite Forall_lookup in Ha. rewrite Forall_lookup in Hc.
    rewrite length_app. by rewrite (Ha _ _ Hu), (Hc _ _ Hv).
Qed.

Lemma LSTMCell_forward_spec (cell : LSTMCell) (x : T2) (e : entry)
    (b n hid : nat) :
  cell_input_size cell = n → cell_hidden_size cell = hid →
  kernel_ok n hid (cell_kernel cell) →
  has_shape2 b n x → entry_ok b hid e →
  ∃ out, LSTMCell_forward cell x e = Some out ∧ state_ok b hid out.
Proof.
  intros Hn Hh Hk [Hsx [Hlx Hx]] He. unfold LSTMCell_forward.
  rewrite Hsx, Hn, Hh. rewrite option_guard_True by done.
  set (hc := default (new_zeros b hid, new_zeros b hid) e).
  assert (Hhc : state_ok b hid hc).
  { destruct e as [hc'|]; [exact He|]. split; apply new_zeros_shape. }
  destruct Hhc as [[Hs1 [Hl1 H1]] [Hs2 [Hl2 H2]]].
  rewrite !option_guard_True by done. eexists. split; [done|].
  assert (Hrows : ∀ i o,
    zip_with (λ xr s, cell_kernel cell xr s.1 s.2) (data x)
      (zip (data hc.1) (data hc.2)) !! i = Some o →
    length o.1 = hid ∧ length o.2 = hid).
  { intros i o Ho.
    apply lookup_zip_with_Some in Ho as (xr & [h c] & -> & Hxr & Hz).
    apply lookup_zip_with_Some in Hz as (h' & c' & [= <- <-] & Hh' & Hc').
    rewrite Forall_lookup in Hx, H1, H2. simpl. apply Hk; eauto. }
  assert (Hlen : length (zip_with (λ xr s, cell_kernel cell xr s.1 s.2)
                  (data x) (zip (data hc.1) (data hc.2))) = b).
  { rewrite length_zip_with, length_zip_with. lia. }
  split; (split; [done|]); simpl; (split; [by rewrite length_fmap|]);
    apply Forall_lookup; intros i r Hr;
    rewrite list_lookup_fmap in Hr;
    destruct (zip_with _ _ _ !! i) as [o|] eqn:Ho; simplify_eq/=;
    by destruct (Hrows _ _ Ho).
Qed.

(** ** One call of the cell *)

Lemma prev_higher_spec (self : MultilayerLSTMCell) (hx : list entry)
    (b w layer : nat) (recent : T2) :
  Forall (entry_ok b (hidden_size self)) hx → layer + 1 < length hx →
  has_shape2 b w recent →
  ∃ p, prev_higher self hx layer recent = Some p
       ∧ has_shape2 b (hidden_size self) p.
Proof.
  intros Hall Hlt [Hs _]. unfold prev_higher.
  destruct (lookup_lt_is_Some_2 hx (layer + 1)) as [e He]; [lia|].
  rewrite He. simpl. rewrite Forall_lookup in Hall. specialize (Hall _ _ He).
  destruct e as [hc|]; simpl.
  - exists hc.1. split; [done|]. apply Hall.
  - rewrite Hs. simpl. eexists. split; [done|]. apply new_zeros_shape.
Qed.

Section cell.
Variables (input_size hid L : nat) (eli uph : bool).
Variable kernels : nat → list R → list R → list R → list R * list R.
Hypothesis Hkernels : kernels_ok input_size hid L eli uph kernels.

Abbreviation self :=
  (MultilayerLSTMCell_init input_size hid L eli uph kernels).
Abbreviation width := (layer_width input_size hid L eli uph).

Lemma init_lstm_cells (i : nat) :
  i < L →
  lstm_cells self !! i = Some (mkLSTMCell (width i) hid (kernels i)).
Proof.
  intros Hi. unfold MultilayerLSTMCell_init. simpl.
  rewrite list_lookup_fmap, lookup_seq_lt by done. simpl.
  rewrite input_sizes_lookup by lia. done.
Qed.

Lemma init_lstm_cells_length : length (lstm_cells self) = L.
Proof.
  unfold MultilayerLSTMCell_init. simpl.
  by rewrite length_fmap, length_seq.
Qed.

Lemma layer_input_spec (input_ : T2) (hx : list entry) (b layer : nat)
    (recent : T2) :
  has_shape2 b input_size input_ →
  length hx = L → Forall (entry_ok b hid) hx → layer < L →
  has_shape2 b (if decide (layer = 0) then input_size else hid) recent →
  ∃ x, layer_input self input_ hx layer recent = Some x
       ∧ has_shape2 b (width layer) x.
Proof.
  intros Hin Hlen Hall Hlt Hrec.
  unfold layer_input, with_raw_input, layer_width.
  change (every_layer_input self) with eli.
  change (use_previous_higher self) with uph.
  change (layers self) with L.
  assert (∃ r1, (if bool_decide (0 < layer) && eli
                 then cat1 recent input_ else Some recent) = Some r1
          ∧ has_shape2 b (if decide (layer = 0) then input_size
                          else hid + (if eli then input_size else 0)) r1)
    as (r1 & -> & Hr1).
  { destruct (decide (layer = 0)) as [->|Hne].
    - rewrite bool_decide_false by lia. simpl. eauto.
    - rewrite bool_decide_true by lia. simpl. destruct eli.
      + destruct (cat1_spec recent input_ b hid input_size Hrec Hin)
          as (o & -> & Ho & _). eauto.
      + replace (hid + 0) with hid by lia. eauto. }
  simpl. rewrite (andb_comm uph).
  destruct (bool_decide (layer < L - 1) && uph) eqn:Htop.
  - apply andb_prop in Htop as [Htop _]. apply bool_decide_eq_true in Htop.
    assert (Hlt' : layer + 1 < length hx) by lia.
    destruct (prev_higher_spec self hx b _ layer r1 Hall Hlt' Hr1)
      as (p & Hp & Hps).
    rewrite Hp. simpl.
    destruct (cat1_spec r1 p b _ hid Hr1 Hps) as (o & -> & Ho & _). eauto.
  - rewrite Nat.add_0_r. eauto.
Qed.

Lemma layer_step_spec (input_ : T2) (hx : list entry) (b layer : nat)
    (recent : T2) :
  has_shape2 b input_size input_ →
  length hx = L → Forall (entry_ok b hid) hx → layer < L →
  has_shape2 b (if decide (layer = 0) then input_size else hid) recent →
  ∃ out, layer_step self input_ hx layer recent = Some out
         ∧ state_ok b hid out.
Proof.
  intros Hin Hlen Hall Hlt Hrec. unfold layer_step.
  destruct (layer_input_spec input_ hx b layer recent) as (x & -> & Hx);
    try done.
  simpl. rewrite init_lstm_cells by done. simpl.
  destruct (lookup_lt_is_Some_2 hx layer) as [e He]; [lia|].
  rewrite He. simpl. rewrite Forall_lookup in Hall.
  eapply LSTMCell_forward_spec; eauto; by apply Hkernels.
Qed.

Lemma layer_loop_spec (input_ : T2) (hx : list entry) (b : nat) :
  has_shape2 b input_size input_ →
  length hx = L → Forall (entry_ok b hid) hx →
  ∀ n a recent acc,
    a + n = L →
    has_shape2 b (if decide (a = 0) then input_size else hid) recent →
    Forall (state_ok b hid) acc →
    ∃ outs, layer_loop self input_ hx (seq a n) recent acc = Some outs
            ∧ length outs = length acc + n ∧ Forall (state_ok b hid) outs.
Proof.
  intros Hin Hlen Hall. induction n as [|n IH]; intros a recent acc Han Hrec Hacc.
  - exists acc. simpl. split; [done|]. split; [lia|done].
  - simpl.
    destruct (layer_step_spec input_ hx b a recent) as (out & -> & Hout);
      try done; [lia|]. simpl.
    destruct (IH (S a) out.1 (acc ++ [out])) as (outs & Houts & Hl & Hok).
    + lia.
    + destruct (decide (S a = 0)); [lia|]. apply Hout.
    + apply Forall_app. split; [done|]. by apply Forall_singleton.
    + exists outs. split; [done|]. rewrite length_app in Hl. simpl in Hl.
      split; [lia|done].
Qed.

Lemma forward_spec (b : nat) (x : T2) (hx : option (list entry)) :
  has_shape2 b input_size x → hx_ok b hid L hx →
  ∃ outs, MultilayerLSTMCell_forward self x hx = Some outs
          ∧ length outs = L ∧ Forall (state_ok b hid) outs.
Proof.
  intros Hx Hhx. unfold MultilayerLSTMCell_forward.
  change (layers self) with L.
  assert (length (default (replicate L None) hx) = L
          ∧ Forall (entry_ok b hid) (default (replicate L None) hx))
    as [Hlen Hall].
  { destruct hx as [hxl|]; simpl; [exact Hhx|].
    rewrite length_replicate. split; [done|]. by apply Forall_replicate. }
  destruct (layer_loop_spec x _ b Hx Hlen Hall L 0 x [])
    as (outs & Ho & Hl & Hok);
    [lia|done|done|].
  exists outs. split; [done|]. split; [simpl in Hl; lia|done].
Qed.

End cell.

(** The order of the layers: entry [j] of the result is what the unit of
    layer [j] returns, fed with the hidden output of layer [j - 1]. *)
Lemma layer_loop_steps (self : MultilayerLSTMCell) (input_ : T2)
    (hx : list entry) (ls : list nat) :
  ∀ recent acc outs,
    layer_loop self input_ hx ls recent acc = Some outs →
    ∃ new, outs = acc ++ new ∧ length new = length ls
      ∧ ∀ j layer, ls !! j = Some layer →
          ∃ rec, match j with
                 | 0 => Some recent
                 | S j' => fst <$> new !! j'
                 end = Some rec
                 ∧ layer_step self input_ hx layer rec = new !! j
                 ∧ is_Some (new !! j).
Proof.
  induction ls as [|layer ls IH]; intros recent acc outs Hloop; simpl in Hloop.
  - simplify_eq. exists []. rewrite app_nil_r. split; [done|]. split; [done|].
    by intros [|j].
  - destruct (layer_step self input_ hx layer recent) as [out|] eqn:Hstep;
      [|done].
    simpl in Hloop. destruct (IH _ _ _ Hloop) as (new & -> & Hlen & Hsteps).
    exists (out :: new). rewrite <- app_assoc. split; [done|].
    split; [simpl; lia|]. intros [|j] ly Hly; simpl in Hly.
    + simplify_eq. exists recent. simpl. eauto.
    + destruct (Hsteps j ly Hly) as (rec & Hrec & Hst & Hsome).
      exists rec. simpl. split; [|done]. destruct j; simpl; [|done].
      by simplify_eq.
Qed.

(** ** Concatenation of rank-4 tensors *)

Lemma rect4_lookup (b l k n : nat) (d : list (list (list (list R)))) i u :
  rect4 b l k n d → d !! i = Some u → rect3 l k n u.
Proof. intros [_ Hall] Hu. rewrite Forall_lookup in Hall. eauto. Qed.

Lemma rect3_lookup (l k n : nat) (d : list (list (list R))) i u :
  rect3 l k n d → d !! i = Some u → rect2 k n u.
Proof. intros [_ Hall] Hu. rewrite Forall_lookup in Hall. eauto. Qed.

Lemma cat4_dim1_spec (a c : T4) (b l1 l2 k n : nat) :
  has_shape4 b l1 k n a → has_shape4 b l2 k n c →
  ∃ o, cat4_dim1 a c = Some o ∧ has_shape4 b (l1 + l2) k n o
       ∧ ∀ i t, at2 (data o) i t
                = if decide (t < l1) then at2 (data a) i t
                  else at2 (data c) i (t - l1).
Proof.
  intros [Hsa Ha] [Hsc Hc]. unfold cat4_dim1. rewrite Hsa, Hsc.
  rewrite option_guard_True by done. eexists. split; [done|]. simpl.
  split.
  - split; [done|]. simpl. split.
    + rewrite length_zip_with. destruct Ha, Hc. lia.
    + apply Forall_lookup. intros i r Hr.
      apply lookup_zip_with_Some in Hr as (u & v & -> & Hu & Hv).
      destruct (rect4_lookup _ _ _ _ _ _ _ Ha Hu) as [Hlu Hu'].
      destruct (rect4_lookup _ _ _ _ _ _ _ Hc Hv) as [Hlv Hv'].
      split; [rewrite length_app; lia|]. by apply Forall_app.
  - intros i t. unfold at2. rewrite lookup_zip_with.
    destruct (data a !! i) as [u|] eqn:Hu; simpl.
    + destruct (data c !! i) as [v|] eqn:Hv; simpl.
      * destruct (rect4_lookup _ _ _ _ _ _ _ Ha Hu) as [Hlu _].
        case_decide.
        -- by rewrite lookup_app_l by lia.
        -- rewrite lookup_app_r by lia. by rewrite Hlu.
      * apply lookup_ge_None in Hv. apply lookup_lt_Some in Hu.
        destruct Ha, Hc. lia.
    + assert (data c !! i = None) as ->.
      { apply lookup_ge_None in Hu. apply lookup_ge_None.
        destruct Ha, Hc. lia. }
      by case_decide.
Qed.

Lemma cat4_dim2_spec (a c : T4) (b l k1 k2 n : nat) :
  has_shape4 b l k1 n a → has_shape4 b l k2 n c →
  ∃ o, cat4_dim2 a c = Some o ∧ has_shape4 b l (k1 + k2) n o
       ∧ ∀ i t ly, at3 (data o) i t ly
                   = if decide (ly < k1) then at3 (data a) i t ly
                     else at3 (data c) i t (ly - k1).
Proof.
  intros [Hsa Ha] [Hsc Hc]. unfold cat4_dim2. rewrite Hsa, Hsc.
  rewrite option_guard_True by done. eexists. split; [done|]. simpl.
  split.
  - split; [done|]. simpl. split.
    + rewrite length_zip_with. destruct Ha, Hc. lia.
    + apply Forall_lookup. intros i r Hr.
      apply lookup_zip_with_Some in Hr as (u & v & -> & Hu & Hv).
      pose proof (rect4_lookup _ _ _ _ _ _ _ Ha Hu) as Hu'.
      pose proof (rect4_lookup _ _ _ _ _ _ _ Hc Hv) as Hv'.
      split; [rewrite length_zip_with; destruct Hu', Hv'; lia|].
      apply Forall_lookup. intros t r Hr.
      apply lookup_zip_with_Some in Hr as (u2 & v2 & -> & Hu2 & Hv2).
      destruct (rect3_lookup _ _ _ _ _ _ Hu' Hu2) as [Hlu Hu3].
      destruct (rect3_lookup _ _ _ _ _ _ Hv' Hv2) as [Hlv Hv3].
      split; [rewrite length_app; lia|]. by apply Forall_app.
  - intros i t ly. unfold at3, at2. rewrite lookup_zip_with.
    destruct (data a !! i) as [u|] eqn:Hu; simpl.
    2:{ assert (data c !! i = None) as ->.
        { apply lookup_ge_None in Hu. apply lookup_ge_None.
          destruct Ha, Hc. lia. }
        by case_decide. }
    destruct (data c !! i) as [v|] eqn:Hv; simpl.
    2:{ apply lookup_ge_None in Hv. apply lookup_lt_Some in Hu.
        destruct Ha, Hc. lia. }
    pose proof (rect4_lookup _ _ _ _ _ _ _ Ha Hu) as Hu'.
    pose proof (rect4_lookup _ _ _ _ _ _ _ Hc Hv) as Hv'.
    rewrite lookup_zip_with.
    destruct (u !! t) as [u2|] eqn:Hu2; simpl.
    2:{ assert (v !! t = None) as ->.
        { apply lookup_ge_None in Hu2. apply lookup_ge_None.
          destruct Hu', Hv'. lia. }
        by case_decide. }
    destruct (v !! t) as [v2|] eqn:Hv2; simpl.
    2:{ apply lookup_ge_None in Hv2. apply lookup_lt_Some in Hu2.
        destruct Hu', Hv'. lia. }
    destruct (rect3_lookup _ _ _ _ _ _ Hu' Hu2) as [Hlu _].
    case_decide.
    + by rewrite lookup_app_l by lia.
    + rewrite lookup_app_r by lia. by rewrite Hlu.
Qed.

Lemma cat_from_dim1_spec (b k n : nat) (ts : list T4) :
  Forall (has_shape4 b 1 k n) ts →
  ∀ (acc : T4) la, has_shape4 b la k n acc →
  ∃ o, cat_from cat4_dim1 acc ts = Some o
       ∧ has_shape4 b (la + length ts) k n o
       ∧ ∀ i t, at2 (data o) i t
                = if decide (t < la) then at2 (data acc) i t
                  else ts !! (t - la) ≫= (λ x, at2 (data x) i 0).
Proof.
  induction 1 as [|x ts Hx _ IH]; intros acc la Hacc; simpl.
  - exists acc. split; [done|]. rewrite Nat.add_0_r. split; [done|].
    intros i t. case_decide; [done|]. unfold at2.
    destruct (data acc !! i) as [u|] eqn:Hu; simpl; [|done].
    destruct Hacc as [_ Hacc].
    destruct (rect4_lookup _ _ _ _ _ _ _ Hacc Hu) as [Hlu _].
    apply lookup_ge_None. lia.
  - destruct (cat4_dim1_spec acc x b la 1 k n Hacc Hx) as (o1 & -> & Ho1 & Hat).
    simpl. destruct (IH o1 (la + 1) Ho1) as (o & -> & Ho & Hat').
    exists o. split; [done|]. split.
    { by replace (la + S (length ts)) with (la + 1 + length ts) by lia. }
    intros i t. rewrite Hat'. case_decide as H1.
    + rewrite Hat. case_decide as H2; [done|].
      assert (t = la) as -> by lia. by rewrite Nat.sub_diag.
    + case_decide; [lia|]. replace (t - la) with (S (t - (la + 1))) by lia.
      done.
Qed.

Lemma cat_list_dim1_spec (b k n : nat) (ts : list T4) :
  Forall (has_shape4 b 1 k n) ts → 0 < length ts →
  ∃ o, cat_list cat4_dim1 ts = Some o
       ∧ has_shape4 b (length ts) k n o
       ∧ ∀ i t, at2 (data o) i t = ts !! t ≫= (λ x, at2 (data x) i 0).
Proof.
  intros Hall Hlen. destruct ts as [|x ts]; [simpl in Hlen; lia|].
  apply Forall_cons in Hall as [Hx Hts]. simpl.
  destruct (cat_from_dim1_spec b k n ts Hts x 1 Hx) as (o & -> & Ho & Hat).
  exists o. split; [done|]. split; [done|].
  intros i t. rewrite Hat.
  destruct t as [|t]; case_decide; try lia; simpl; by rewrite ?Nat.sub_0_r.
Qed.

Lemma cat_from_dim2_spec (b n : nat) (ts : list T4) :
  Forall (has_shape4 b 1 1 n) ts →
  ∀ (acc : T4) ka, has_shape4 b 1 ka n acc →
  ∃ o, cat_from cat4_dim2 acc ts = Some o
       ∧ has_shape4 b 1 (ka + length ts) n o
       ∧ ∀ i ly, at3 (data o) i 0 ly
                 = if decide (ly < ka) then at3 (data acc) i 0 ly
                   else ts !! (ly - ka) ≫= (λ x, at3 (data x) i 0 0).
Proof.
  induction 1 as [|x ts Hx _ IH]; intros acc ka Hacc; simpl.
  - exists acc. split; [done|]. rewrite Nat.add_0_r. split; [done|].
    intros i ly. case_decide; [done|]. unfold at3, at2.
    destruct (data acc !! i) as [u|] eqn:Hu; simpl; [|done].
    destruct (u !! 0) as [u2|] eqn:Hu2; simpl; [|done].
    destruct Hacc as [_ Hacc].
    pose proof (rect4_lookup _ _ _ _ _ _ _ Hacc Hu) as Hu'.
    destruct (rect3_lookup _ _ _ _ _ _ Hu' Hu2) as [Hlu _].
    apply lookup_ge_None. lia.
  - destruct (cat4_dim2_spec acc x b 1 ka 1 n Hacc Hx) as (o1 & -> & Ho1 & Hat).
    simpl. destruct (IH o1 (ka + 1) Ho1) as (o & -> & Ho & Hat').
    exists o. split; [done|]. split.
    { by replace (ka + S (length ts)) with (ka + 1 + length ts) by lia. }
    intros i ly. rewrite Hat'. case_decide as H1.
    + rewrite Hat. case_decide as H2; [done|].
      assert (ly = ka) as -> by lia. by rewrite Nat.sub_diag.
    + case_decide; [lia|]. replace (ly - ka) with (S (ly - (ka + 1))) by lia.
      done.
Qed.

Lemma cat_list_dim2_spec (b n : nat) (ts : list T4) :
  Forall (has_shape4 b 1 1 n) ts → 0 < length ts →
  ∃ o, cat_list cat4_dim2 ts = Some o
       ∧ has_shape4 b 1 (length ts) n o
       ∧ ∀ i ly, at3 (data o) i 0 ly = ts !! ly ≫= (λ x, at3 (data x) i 0 0).
Proof.
  intros Hall Hlen. destruct ts as [|x ts]; [simpl in Hlen; lia|].
  apply Forall_cons in Hall as [Hx Hts]. simpl.
  destruct (cat_from_dim2_spec b n ts Hts x 1 Hx) as (o & -> & Ho & Hat).
  exists o. split; [done|]. split; [done|].
  intros i ly. rewrite Hat.
  destruct ly as [|ly]; case_decide; try lia; simpl; by rewrite ?Nat.sub_0_r.
Qed.

(** ** The reset rule *)

Lemma mapM_fmap_total {A B} (f : A → option B) (g : A → B) (l : list A) :
  Forall (λ x, f x = Some (g x)) l → mapM f l = Some (g <$> l).
Proof.
  intros Hall. apply mapM_Some_2. apply Forall2_fmap_r.
  by apply Forall_Forall2_diag.
Qed.

Lemma expand_same {A} (n : nat) (l : list A) : expand n n l = l.
Proof. unfold expand. by rewrite decide_True. Qed.

Lemma expand_single {A} (n : nat) (x : A) : expand 1 n [x] = replicate n x.
Proof.
  unfold expand. case_decide as Hn; [|done]. by rewrite <- Hn.
Qed.

Lemma bdim_same (n : nat) : bdim n n = Some n.
Proof. unfold bdim. by rewrite decide_True. Qed.

Lemma bdim_one_r (n : nat) : bdim n 1 = Some n.
Proof. unfold bdim. repeat case_decide; congruence. Qed.

Lemma zip_with_rmul_replicate (row : list R) (y : R) :
  zip_with rmul row (replicate (length row) y) = (λ v, rmul v y) <$> row.
Proof. induction row as [|v row IH]; simpl; [done|]. by rewrite IH. Qed.

Lemma scale_rows_shape (col : list R) (h : T2) (b n : nat) :
  has_shape2 b n h → length col = b → has_shape2 b n (scale_rows col h).
Proof.
  intros [Hs [Hl Hall]] Hc. split; [done|]. simpl. split.
  - rewrite length_zip_with. lia.
  - apply Forall_lookup. intros i r Hr.
    apply lookup_zip_with_Some in Hr as (row & x & -> & Hrow & _).
    rewrite length_fmap. rewrite Forall_lookup in Hall. eauto.
Qed.

Lemma bmul_one_minus (col : list R) (h : T2) (b n : nat) :
  has_shape2 b n h → length col = b →
  bmul h (one_minus (mkTensor [b; 1] ((λ x, [x]) <$> col)))
  = Some (scale_rows col h).
Proof.
  intros [Hs [Hl Hall]] Hc. unfold bmul, one_minus. simpl. rewrite Hs.
  rewrite bdim_same, bdim_one_r. simpl. rewrite !expand_same.
  unfold scale_rows. rewrite Hs. do 2 f_equal.
  rewrite <- !list_fmap_compose.
  clear Hl Hc. revert col.
  induction Hall as [|row rows Hrow _ IH]; intros [|x col]; simpl; try done.
  rewrite expand_same. f_equal; [|apply IH].
  rewrite expand_single, <- Hrow. apply zip_with_rmul_replicate.
Qed.

Lemma scale_entry_spec (col : list R) (hc : T2 * T2) (b n : nat) :
  state_ok b n hc → length col = b →
  scale_entry (mkTensor [b; 1] ((λ x, [x]) <$> col)) hc
  = Some (scale_state col hc).
Proof.
  intros [Hh Hcc] Hc. unfold scale_entry.
  rewrite (bmul_one_minus col _ b n), (bmul_one_minus col _ b n) by done.
  done.
Qed.

Lemma scale_state_ok (col : list R) (hc : T2 * T2) (b n : nat) :
  state_ok b n hc → length col = b → state_ok b n (scale_state col hc).
Proof. intros [??] ?. split; by apply scale_rows_shape. Qed.

Lemma any_gt_eps_col (sh : list nat) (col : list R) :
  any_gt_eps (mkTensor sh ((λ x, [x]) <$> col)) = col_any_gt col.
Proof.
  unfold any_gt_eps, col_any_gt. simpl.
  induction col as [|x col IH]; [done|].
  rewrite fmap_cons. cbn [existsb]. by rewrite IH, orb_false_r.
Qed.

Lemma reset_col_spec (reset : T2) (b l t : nat) :
  has_shape2 b l reset → t < l →
  select_col reset t
  = Some (mkTensor [b; 1] ((λ x, [x]) <$> reset_col reset t))
  ∧ length (reset_col reset t) = b
  ∧ ∀ i, reset_col reset t !! i = at2 (data reset) i t.
Proof.
  intros Hr Ht. destruct (select_col_spec reset b l t Hr Ht)
    as (col & Hsel & Hlen & Hlk).
  assert (reset_col reset t = col) as ->; [|done].
  unfold reset_col. unfold select_col in Hsel. destruct Hr as [Hs _].
  rewrite Hs in Hsel. rewrite option_guard_True in Hsel by done.
  destruct (mapM _ (data reset)) as [d|]; simpl in *; [|done].
  injection Hsel as Hd. by apply (inj (fmap (λ x : R, [x]))) in Hd.
Qed.

Lemma apply_reset_spec (reset : T2) (hx : list (T2 * T2)) (b l n t : nat) :
  has_shape2 b l reset → t < l → Forall (state_ok b n) hx →
  apply_reset (Some reset) t hx
  = Some (if col_any_gt (reset_col reset t)
          then scale_state (reset_col reset t) <$> hx else hx).
Proof.
  intros Hr Ht Hall. unfold apply_reset.
  destruct (reset_col_spec reset b l t Hr Ht) as (-> & Hlen & _). simpl.
  rewrite any_gt_eps_col. destruct (col_any_gt _); [|done].
  apply mapM_fmap_total. eapply Forall_impl; [exact Hall|].
  intros hc Hhc. by apply (scale_entry_spec _ _ b n).
Qed.

Lemma reset_rule_spec (reset : option T2) (hx : list (T2 * T2))
    (b l n t : nat) :
  reset_ok b l reset → t < l → Forall (state_ok b n) hx →
  apply_reset reset t hx = Some (reset_rule reset t hx)
  ∧ length (reset_rule reset t hx) = length hx
  ∧ Forall (state_ok b n) (reset_rule reset t hx).
Proof.
  intros Hr Ht Hall. destruct reset as [r|]; [|done].
  rewrite (apply_reset_spec r hx b l n t) by done. simpl.
  split; [done|]. destruct (col_any_gt _); [|done].
  rewrite length_fmap. split; [done|]. apply Forall_fmap.
  eapply Forall_impl; [exact Hall|]. intros hc Hhc.
  apply scale_state_ok; [done|].
  by destruct (reset_col_spec r b l t Hr Ht) as (_ & ? & _).
Qed.

Lemma unsqueeze12_spec (h : T2) (b n : nat) :
  has_shape2 b n h →
  ∃ o, unsqueeze12 h = Some o ∧ has_shape4 b 1 1 n o
       ∧ ∀ i, at3 (data o) i 0 0 = data h !! i.
Proof.
  intros [Hs [Hl Hall]]. unfold unsqueeze12. rewrite Hs.
  eexists. split; [done|]. split.
  - split; [done|]. simpl. split; [by rewrite length_fmap|].
    apply Forall_fmap. eapply Forall_impl; [exact Hall|].
    intros r Hr. simpl. split; [done|]. apply Forall_singleton.
    split; [done|]. by apply Forall_singleton.
  - intros i. unfold at3, at2. simpl. rewrite list_lookup_fmap.
    by destruct (data h !! i).
Qed.

Lemma stack_hidden_spec (hx : list (T2 * T2)) (b n : nat) :
  Forall (state_ok b n) hx → 0 < length hx →
  ∃ o, stack_hidden hx = Some o ∧ has_shape4 b 1 (length hx) n o
       ∧ ∀ i ly, at3 (data o) i 0 ly
                 = hx !! ly ≫= (λ hc, data hc.1 !! i).
Proof.
  intros Hall Hlen. unfold stack_hidden.
  assert (∃ hs, mapM (λ hc : T2 * T2, unsqueeze12 hc.1) hx = Some hs
            ∧ Forall2 (λ (hc : T2 * T2) (o : T4),
                has_shape4 b 1 1 n o
                ∧ ∀ i, at3 (data o) i 0 0 = data hc.1 !! i) hx hs)
    as (hs & -> & Hhs).
  { clear Hlen. induction Hall as [|hc hx [Hh _] _ (hs & IH & Hhs)].
    - exists []. by split.
    - destruct (unsqueeze12_spec hc.1 b n Hh) as (o & Ho & Hos & Hat).
      exists (o :: hs). simpl. rewrite Ho. simpl. rewrite IH. simpl.
      split; [done|]. by constructor. }
  simpl. pose proof (Forall2_length _ _ _ Hhs) as Hl.
  destruct (cat_list_dim2_spec b n hs) as (o & -> & Ho & Hat).
  - apply Forall2_Forall_r with (1 := Hhs). apply Forall_forall. tauto.
  - lia.
  - exists o. split; [done|]. rewrite Hl. split; [done|].
    intros i ly. rewrite Hat.
    destruct (hs !! ly) as [x|] eqn:Hx; simpl.
    + destruct (Forall2_lookup_r _ _ _ _ _ Hhs Hx) as (hc & -> & _ & Heq).
      simpl. apply Heq.
    + apply lookup_ge_None in Hx. rewrite <- Hl in Hx.
      apply lookup_ge_None in Hx. by rewrite Hx.
Qed.

(** ** The loop over the timesteps *)

Lemma time_loop_app (cell : MultilayerLSTMCell) (input_ : T3)
    (reset : option T2) (ts1 ts2 : list nat) st :
  time_loop cell input_ reset (ts1 ++ ts2) st
  = time_loop cell input_ reset ts1 st ≫= time_loop cell input_ reset ts2.
Proof.
  revert st. induction ts1 as [|t ts1 IH]; intros st; simpl; [done|].
  destruct (time_step cell input_ reset st t); simpl; [apply IH|done].
Qed.

Lemma run_to_S (cell : MultilayerLSTMCell) (input_ : T3)
    (reset : option T2) (t : nat) :
  run_to cell input_ reset (S t)
  = run_to cell input_ reset t ≫= (λ st, time_step cell input_ reset st t).
Proof.
  unfold run_to. rewrite seq_S, time_loop_app. simpl.
  destruct (time_loop _ _ _ _ _) as [st|]; simpl; [|done].
  by destruct (time_step _ _ _ _ _).
Qed.

Section driver.
Variables (input_size hid L : nat) (eli uph : bool).
Variable kernels : nat → list R → list R → list R → list R * list R.
Hypothesis Hkernels : kernels_ok input_size hid L eli uph kernels.
Hypothesis HL : 1 ≤ L.
Variables (b l : nat) (input_ : T3) (reset : option T2).
Hypothesis Hinput : has_shape3 b l input_size input_.
Hypothesis Hreset : reset_ok b l reset.

Abbreviation self :=
  (MultilayerLSTMCell_init input_size hid L eli uph kernels).

Lemma time_step_spec (t : nat) st :
  t < l → loop_inv b hid L t st →
  ∃ x new o,
    select1 input_ t = Some x ∧ has_shape2 b input_size x
    ∧ MultilayerLSTMCell_forward self x
        ((λ l : list (T2 * T2), Some <$> l) <$> st.1) = Some new
    ∧ length new = L ∧ Forall (state_ok b hid) new
    ∧ stack_hidden new = Some o
    ∧ (∀ i ly, at3 (data o) i 0 ly = new !! ly ≫= (λ hc, data hc.1 !! i))
    ∧ time_step self input_ reset st t
      = Some (Some (reset_rule reset t new), st.2 ++ [o])
    ∧ loop_inv b hid L (S t) (Some (reset_rule reset t new), st.2 ++ [o]).
Proof.
  intros Ht (Hst & Hlen & Houts).
  destruct (select1_spec input_ b l input_size t Hinput Ht)
    as (d & Hsel & Hd & _).
  destruct (forward_spec input_size hid L eli uph kernels Hkernels b
              (mkTensor [b; input_size] d)
              ((λ l : list (T2 * T2), Some <$> l) <$> st.1))
    as (new & Hnew & Hnl & Hnok).
  { by split. }
  { destruct st.1 as [hx|]; simpl; [|done]. destruct Hst as (_ & Hl & Hok).
    rewrite length_fmap. split; [done|]. by apply Forall_fmap. }
  destruct (stack_hidden_spec new b hid Hnok) as (o & Ho & Hos & Hat); [lia|].
  destruct (reset_rule_spec reset new b l hid t Hreset Ht Hnok)
    as (Hap & Hrl & Hrok).
  exists (mkTensor [b; input_size] d), new, o.
  split; [done|]. split; [by split|]. split; [done|]. split; [done|].
  split; [done|]. split; [done|]. split; [done|]. split.
  - unfold time_step. rewrite Hsel. simpl. rewrite Hnew. simpl.
    rewrite Ho. simpl. by rewrite Hap.
  - split; simpl.
    + split; [lia|]. split; [lia|done].
    + rewrite length_app. simpl. split; [lia|].
      apply Forall_app. split; [done|]. apply Forall_singleton.
      by rewrite <- Hnl.
Qed.

Lemma run_to_spec (t : nat) :
  t ≤ l → ∃ st, run_to self input_ reset t = Some st ∧ loop_inv b hid L t st.
Proof.
  induction t as [|t IH]; intros Ht.
  - exists (None, []). split; [done|]. by repeat split.
  - destruct IH as (st & Hrun & Hinv); [lia|].
    destruct (time_step_spec t st) as (x & new & o & _ & _ & _ & _ & _ & _
                                        & _ & Hstep & Hinv'); [lia|done|].
    eexists. split; [|exact Hinv']. by rewrite run_to_S, Hrun.
Qed.

(** One turn, in terms of [carried] and [new_stack]. *)
Lemma carried_S (t : nat) :
  t < l →
  ∃ st new o,
    run_to self input_ reset t = Some st
    ∧ new_stack self input_ reset t = Some new
    ∧ length new = L ∧ Forall (state_ok b hid) new
    ∧ stack_hidden new = Some o
    ∧ (∀ i ly, at3 (data o) i 0 ly = new !! ly ≫= (λ hc, data hc.1 !! i))
    ∧ run_to self input_ reset (S t)
      = Some (Some (reset_rule reset t new), st.2 ++ [o]).
Proof.
  intros Ht. destruct (run_to_spec t) as (st & Hrun & Hinv); [lia|].
  destruct (time_step_spec t st Ht Hinv)
    as (x & new & o & Hsel & _ & Hnew & Hnl & Hnok & Ho & Hat & Hstep & _).
  exists st, new, o. split; [done|]. split.
  { unfold new_stack, carried. rewrite Hrun. simpl. rewrite Hsel. done. }
  split; [done|]. split; [done|]. split; [done|]. split; [done|].
  by rewrite run_to_S, Hrun.
Qed.

(** The outputs collected so far are never changed by later turns. *)
Lemma run_to_outputs (t t' : nat) st :
  t' < t → t ≤ l → run_to self input_ reset t = Some st →
  st.2 !! t' = new_stack self input_ reset t' ≫= stack_hidden.
Proof.
  revert st. induction t as [|t IH]; intros st Ht' Ht Hrun; [lia|].
  destruct (carried_S t) as (st0 & new & o & Hrun0 & Hnew & _ & _ & Ho & _
                             & HrunS); [lia|].
  rewrite HrunS in Hrun. injection Hrun as <-. simpl.
  destruct (run_to_spec t) as (st1 & Hrun1 & _ & Hlen & _); [lia|].
  rewrite Hrun0 in Hrun1. injection Hrun1 as <-.
  destruct (decide (t' = t)) as [->|Hne].
  - rewrite lookup_app_r by lia. rewrite Hlen, Nat.sub_diag. simpl.
    by rewrite Hnew.
  - rewrite lookup_app_l by lia. apply IH; [lia|lia|done].
Qed.

Lemma forward_output :
  0 < l →
  ∃ out, MultilayerLSTM_forward self input_ reset = Some out
    ∧ has_shape4 b l L hid out
    ∧ ∀ t i ly, t < l →
        at3 (data out) i t ly
        = new_stack self input_ reset t
            ≫= (λ new, new !! ly ≫= (λ hc, data hc.1 !! i)).
Proof.
  intros Hl. unfold MultilayerLSTM_forward.
  destruct Hinput as [Hs _]. rewrite Hs. simpl.
  destruct (run_to_spec l) as (st & Hrun & _ & Hlen & Houts); [lia|].
  unfold run_to in Hrun. rewrite Hrun. simpl.
  destruct (cat_list_dim1_spec b L hid st.2 Houts) as (out & -> & Hout & Hat);
    [lia|].
  exists out. split; [done|]. rewrite Hlen in Hout. split; [done|].
  intros t i ly Ht. unfold at3. rewrite Hat.
  rewrite (run_to_outputs l t st) by done.
  destruct (carried_S t Ht) as (_ & new & o & _ & -> & _ & _ & Ho & Hato & _).
  simpl. rewrite Ho. simpl. apply Hato.
Qed.

End driver.

Lemma scale_rows_lookup (col : list R) (h : T2) (i : nat) row x :
  data h !! i = Some row → col !! i = Some x →
  data (scale_rows col h) !! i = Some ((λ v, rmul v (rsub rone x)) <$> row).
Proof.
  intros Hrow Hx. unfold scale_rows. simpl.
  rewrite lookup_zip_with, Hrow. simpl. by rewrite Hx.
Qed.

Lemma col_any_gt_true (col : list R) :
  col_any_gt col = true ↔ ∃ i x, col !! i = Some x ∧ rgtb x reps = true.
Proof.
  unfold col_any_gt. rewrite existsb_exists. split.
  - intros (x & Hin & Hx). apply list_elem_of_In in Hin.
    apply list_elem_of_lookup in Hin as [i Hi]. eauto.
  - intros (i & x & Hi & Hx). exists x. split; [|done].
    apply list_elem_of_In. by apply list_elem_of_lookup_2 in Hi.
Qed.

Lemma fmap_scale_one (row : list R) :
  Forall zeroed_by_one row →
  (λ v, rmul v (rsub rone rone)) <$> row = replicate (length row) rzero.
Proof.
  induction 1 as [|v row Hv _ IH]; [done|].
  rewrite fmap_cons. simpl. by rewrite Hv, IH.
Qed.

Lemma fmap_scale_zero `{!ScalarLaws R} (row : list R) :
  (λ v, rmul v (rsub rone rzero)) <$> row = row.
Proof.
  induction row as [|v row IH]; [done|].
  rewrite fmap_cons. by rewrite rmul_sub_one_zero, IH.
Qed.

(** ** The claims *)

(** C3. For a configuration with at least one layer and units that return
    vectors of the hidden width, and an input shaped [[b, l, input_size]]
    with [1 ≤ l] (and a reset, when given, shaped [[b, l]]),
    [MultilayerLSTM.forward] returns a tensor whose shape is exactly
    [[b, l, layers, hidden_size]]; its element [[i, t, k]] is row [i] of the
    hidden output of layer [k] of the stack computed at timestep [t]. *)
Theorem MultilayerLSTM_forward_shape
    (input_size hid L : nat) (eli uph : bool)
    (kernels : nat → list R → list R → list R → list R * list R)
    (b l : nat) (input_ : T3) (reset : option T2) :
  kernels_ok input_size hid L eli uph kernels →
  1 ≤ L →
  has_shape3 b l input_size input_ →
  reset_ok b l reset →
  1 ≤ l →
  ∃ out,
    MultilayerLSTM_forward
      (MultilayerLSTMCell_init input_size hid L eli uph kernels)
      input_ reset = Some out
    ∧ shape out = [b; l; L; hid]
    ∧ rect4 b l L hid (data out)
    ∧ ∀ t i k, t < l →
        at3 (data out) i t k
        = new_stack
            (MultilayerLSTMCell_init input_size hid L eli uph kernels)
            input_ reset t
            ≫= (λ new, new !! k ≫= (λ hc, data hc.1 !! i)).
Proof.
  intros Hk HL Hin Hr Hl.
  destruct (forward_output input_size hid L eli uph kernels Hk HL
              b l input_ reset Hin Hr) as (out & Hout & [Hs Hd] & Hat); [lia|].
  exists out. split; [done|]. split; [done|]. split; [done|]. exact Hat.
Qed.

(** C4 (as amended). The unit of layer [i] is built for an input of width:
    [input_size] for layer 0 and, for layers 1..L-1, [hidden_size] plus
    [input_size] when [every_layer_input] is set; plus, for every layer
    below the topmost one (layer 0 included), [hidden_size] again when
    [use_previous_higher] is set. *)
Theorem init_input_widths
    (input_size hid L : nat) (eli uph : bool)
    (kernels : nat → list R → list R → list R → list R * list R) (i : nat) :
  i < L →
  cell_input_size
    <$> lstm_cells
          (MultilayerLSTMCell_init input_size hid L eli uph kernels) !! i
  = Some ((if decide (i = 0) then input_size
           else hid + (if eli then input_size else 0))
          + (if uph && bool_decide (i < L - 1) then hid else 0)).
Proof. intros Hi. by rewrite init_lstm_cells. Qed.

(** C5. With [use_previous_higher] set and no prior stack ([hx] absent, as
    at timestep 0), for every layer below the topmost the previous hidden
    state of the layer above is a tensor of zeros shaped
    [[batch, hidden_size]], and it is what gets concatenated to the right of
    that layer's input. *)
Theorem prev_higher_absent_is_zero
    (self : MultilayerLSTMCell) (input_ recent r1 : T2) (layer b w : nat) :
  use_previous_higher self = true →
  layer < layers self - 1 →
  with_raw_input self input_ layer recent = Some r1 →
  shape r1 = [b; w] →
  prev_higher self (replicate (layers self) None) layer r1
  = Some (new_zeros b (hidden_size self))
  ∧ shape (new_zeros b (hidden_size self)) = [b; hidden_size self]
  ∧ data (new_zeros b (hidden_size self))
    = replicate b (replicate (hidden_size self) rzero)
  ∧ layer_input self input_ (replicate (layers self) None) layer recent
    = cat1 r1 (new_zeros b (hidden_size self))
  ∧ cat1 r1 (new_zeros b (hidden_size self))
    = Some (mkTensor [b; w + hidden_size self]
              (zip_with app (data r1)
                 (replicate b (replicate (hidden_size self) rzero))))
  ∧ MultilayerLSTMCell_forward self input_ None
    = layer_loop self input_ (replicate (layers self) None)
        (seq 0 (layers self)) input_ [].
Proof.
  intros Huph Hlt Hr1 Hs.
  assert (Hp : prev_higher self (replicate (layers self) None) layer r1
               = Some (new_zeros b (hidden_size self))).
  { unfold prev_higher. rewrite lookup_replicate_2 by lia. simpl.
    by rewrite Hs. }
  split; [done|]. split; [done|]. split; [done|]. split.
  - unfold layer_input. rewrite Hr1. simpl. rewrite Huph.
    rewrite bool_decide_true by done. simpl. by rewrite Hp.
  - split; [|done]. unfold cat1. rewrite Hs. simpl.
    by rewrite option_guard_True.
Qed.

(** C9. A call of [MultilayerLSTMCell.forward] with an input shaped
    [[b, input_size]] and [hx] absent or a list of [L] entries returns a
    list of exactly [L] tuples [(h, c)] of tensors shaped [[b, hidden_size]];
    entry [j] is what the unit of layer [j] returned (fed from layer
    [j - 1]); and in a run of the driver the stack carried into every
    timestep after the first has the same length [L]. *)
Theorem forward_returns_layers_pairs
    (input_size hid L : nat) (eli uph : bool)
    (kernels : nat → list R → list R → list R → list R * list R)
    (b : nat) (x : T2) (hx : option (list entry))
    (l t : nat) (input_ : T3) (reset : option T2) :
  kernels_ok input_size hid L eli uph kernels →
  has_shape2 b input_size x →
  hx_ok b hid L hx →
  1 ≤ L →
  has_shape3 b l input_size input_ →
  reset_ok b l reset →
  0 < t ≤ l →
  (∃ outs,
     MultilayerLSTMCell_forward
       (MultilayerLSTMCell_init input_size hid L eli uph kernels) x hx
     = Some outs
     ∧ length outs = L
     ∧ Forall (state_ok b hid) outs
     ∧ ∀ j, j < L →
         ∃ rec, match j with
                | 0 => Some x
                | S j' => fst <$> outs !! j'
                end = Some rec
                ∧ layer_step
                    (MultilayerLSTMCell_init input_size hid L eli uph kernels)
                    x (default (replicate L None) hx) j rec = outs !! j
                ∧ is_Some (outs !! j))
  ∧ (∃ stack,
       carried (MultilayerLSTMCell_init input_size hid L eli uph kernels)
         input_ reset t = Some (Some stack)
       ∧ length stack = L
       ∧ Forall (state_ok b hid) stack).
Proof.
  intros Hk Hx Hhx HL Hin Hr Ht. split.
  - destruct (forward_spec input_size hid L eli uph kernels Hk b x hx Hx Hhx)
      as (outs & Hout & Hlen & Hok).
    exists outs. split; [done|]. split; [done|]. split; [done|].
    unfold MultilayerLSTMCell_forward in Hout.
    apply layer_loop_steps in Hout as (new & Hnew & _ & Hsteps).
    simpl in Hnew. subst new. intros j Hj.
    apply (Hsteps j j). by apply lookup_seq_lt.
  - destruct (run_to_spec input_size hid L eli uph kernels Hk HL
                b l input_ reset Hin Hr t) as ([s outs] & Hrun & Hs & _);
      [lia|].
    simpl in Hs. destruct s as [stack|]; [|lia].
    exists stack. unfold carried. rewrite Hrun. simpl.
    by destruct Hs as (_ & ? & ?).
Qed.

(** C10. With a reset supplied, at timestep [t]: when some batch element
    has [reset[:, t] > 1e-6], every layer's new hidden and cell tensors are
    multiplied, row [i] by [1 - reset[i, t]] for every batch element [i]
    (whatever its own reset value), and that is the state carried into
    timestep [t + 1]; when no element exceeds the threshold the new stack is
    carried unchanged. *)
Theorem reset_scales_whole_batch
    (input_size hid L : nat) (eli uph : bool)
    (kernels : nat → list R → list R → list R → list R * list R)
    (b l t : nat) (input_ : T3) (reset : T2) :
  kernels_ok input_size hid L eli uph kernels →
  1 ≤ L →
  has_shape3 b l input_size input_ →
  has_shape2 b l reset →
  t < l →
  ∃ new stack,
    new_stack (MultilayerLSTMCell_init input_size hid L eli uph kernels)
      input_ (Some reset) t = Some new
    ∧ carried (MultilayerLSTMCell_init input_size hid L eli uph kernels)
        input_ (Some reset) (S t) = Some (Some stack)
    ∧ length new = L ∧ length stack = L
    ∧ ((∃ i x, at2 (data reset) i t = Some x ∧ rgtb x reps = true) →
       ∀ k hc i hrow crow x,
         new !! k = Some hc →
         data hc.1 !! i = Some hrow → data hc.2 !! i = Some crow →
         at2 (data reset) i t = Some x →
         ∃ hc', stack !! k = Some hc'
           ∧ shape hc'.1 = [b; hid] ∧ shape hc'.2 = [b; hid]
           ∧ data hc'.1 !! i = Some ((λ v, rmul v (rsub rone x)) <$> hrow)
           ∧ data hc'.2 !! i = Some ((λ v, rmul v (rsub rone x)) <$> crow))
    ∧ ((∀ i x, at2 (data reset) i t = Some x → rgtb x reps = false) →
       stack = new).
Proof.
  intros Hk HL Hin Hr Ht.
  destruct (carried_S input_size hid L eli uph kernels Hk HL b l input_
              (Some reset) Hin Hr t Ht)
    as (st & new & o & _ & Hnew & Hlen & Hok & _ & _ & HrunS).
  destruct (reset_col_spec reset b l t Hr Ht) as (_ & Hcl & Hcol).
  exists new, (reset_rule (Some reset) t new).
  split; [done|]. split; [unfold carried; by rewrite HrunS|].
  split; [done|]. simpl. split; [|split].
  - destruct (col_any_gt _); [by rewrite length_fmap|done].
  - intros (i0 & x0 & Hx0 & Hgt).
    assert (col_any_gt (reset_col reset t) = true) as ->.
    { apply col_any_gt_true. exists i0, x0. by rewrite Hcol. }
    intros k hc i hrow crow x Hhc Hh Hc Hx.
    exists (scale_state (reset_col reset t) hc).
    rewrite list_lookup_fmap, Hhc. split; [done|].
    rewrite Forall_lookup in Hok. destruct (Hok _ _ Hhc) as [[Hs1 _] [Hs2 _]].
    split; [done|]. split; [done|]. rewrite <- Hcol in Hx.
    split; by apply scale_rows_lookup.
  - intros Hnone.
    destruct (col_any_gt (reset_col reset t)) eqn:Hany; [|done].
    apply col_any_gt_true in Hany as (i & x & Hi & Hx).
    rewrite Hcol in Hi. rewrite (Hnone _ _ Hi) in Hx. done.
Qed.

(** C1 (as amended). If [reset[i, t]] is [1.0], every value [x] of the new
    hidden and cell vectors of batch element [i], in every layer, is
    carried into timestep [t + 1] as [x * (1.0 - 1.0)]: the carried vector
    is zero when its values are finite (for floats a finite [x] gives 0.0
    or -0.0, and a [nan] or infinite value gives [nan]), while the output
    emitted at timestep [t] for element [i] is the hidden output computed
    at [t], untouched by the reset. *)
Theorem reset_one_zeroes_state `{!ScalarLaws R}
    (input_size hid L : nat) (eli uph : bool)
    (kernels : nat → list R → list R → list R → list R * list R)
    (b l t i : nat) (input_ : T3) (reset : T2) :
  kernels_ok input_size hid L eli uph kernels →
  1 ≤ L →
  has_shape3 b l input_size input_ →
  has_shape2 b l reset →
  t < l → i < b →
  at2 (data reset) i t = Some rone →
  ∃ new stack out,
    new_stack (MultilayerLSTMCell_init input_size hid L eli uph kernels)
      input_ (Some reset) t = Some new
    ∧ carried (MultilayerLSTMCell_init input_size hid L eli uph kernels)
        input_ (Some reset) (S t) = Some (Some stack)
    ∧ length new = L ∧ length stack = L
    ∧ (∀ k hc', stack !! k = Some hc' →
         ∃ hc hrow crow,
           new !! k = Some hc
           ∧ data hc.1 !! i = Some hrow ∧ length hrow = hid
           ∧ data hc.2 !! i = Some crow ∧ length crow = hid
           ∧ data hc'.1 !! i
             = Some ((λ v, rmul v (rsub rone rone)) <$> hrow)
           ∧ data hc'.2 !! i
             = Some ((λ v, rmul v (rsub rone rone)) <$> crow)
           ∧ (Forall zeroed_by_one hrow →
              data hc'.1 !! i = Some (replicate hid rzero))
           ∧ (Forall zeroed_by_one crow →
              data hc'.2 !! i = Some (replicate hid rzero)))
    ∧ MultilayerLSTM_forward
        (MultilayerLSTMCell_init input_size hid L eli uph kernels)
        input_ (Some reset) = Some out
    ∧ ∀ k, at3 (data out) i t k = new !! k ≫= (λ hc, data hc.1 !! i).
Proof.
  intros Hk HL Hin Hr Ht Hi Hone.
  destruct (carried_S input_size hid L eli uph kernels Hk HL b l input_
              (Some reset) Hin Hr t Ht)
    as (st & new & o & _ & Hnew & Hlen & Hok & _ & _ & HrunS).
  destruct (reset_col_spec reset b l t Hr Ht) as (_ & Hcl & Hcol).
  destruct (forward_output input_size hid L eli uph kernels Hk HL
              b l input_ (Some reset) Hin Hr) as (out & Hout & _ & Hat); [lia|].
  exists new, (reset_rule (Some reset) t new), out.
  split; [done|]. split; [unfold carried; by rewrite HrunS|].
  assert (col_any_gt (reset_col reset t) = true) as Hany.
  { apply col_any_gt_true. exists i, rone. rewrite Hcol.
    split; [done|apply rgtb_one_eps]. }
  simpl. rewrite Hany. split; [done|]. split; [by rewrite length_fmap|].
  split; [|split].
  - intros k hc' Hhc'. rewrite list_lookup_fmap in Hhc'.
    destruct (new !! k) as [hc|] eqn:Hhc; [|done]. simpl in Hhc'.
    injection Hhc' as <-. rewrite Forall_lookup in Hok.
    destruct (Hok _ _ Hhc) as [[_ [Hl1 Hr1]] [_ [Hl2 Hr2]]].
    destruct (lookup_lt_is_Some_2 (data hc.1) i) as [hrow Hh]; [lia|].
    destruct (lookup_lt_is_Some_2 (data hc.2) i) as [crow Hc]; [lia|].
    rewrite <- Hcol in Hone. unfold scale_state. cbn [fst snd].
    rewrite (scale_rows_lookup _ _ _ _ _ Hh Hone).
    rewrite (scale_rows_lookup _ _ _ _ _ Hc Hone).
    rewrite Forall_lookup in Hr1, Hr2.
    pose proof (Hr1 _ _ Hh) as Hlh. pose proof (Hr2 _ _ Hc) as Hlc.
    exists hc, hrow, crow.
    split; [done|]. split; [done|]. split; [done|]. split; [done|].
    split; [done|]. split; [done|]. split; [done|].
    split; intros Hz; by rewrite (fmap_scale_one _ Hz), ?Hlh, ?Hlc.
  - done.
  - intros k. rewrite Hat by done. by rewrite Hnew.
Qed.

(** ** One layer *)

Section one_layer.
Variables (input_size hid : nat).
Variable kernels : nat → list R → list R → list R → list R * list R.

Abbreviation self1 :=
  (MultilayerLSTMCell_init input_size hid 1 false false kernels).
Abbreviation unit1 := (mkLSTMCell input_size hid (kernels 0)).

Lemma forward_one_layer (x : T2) (s : option (T2 * T2)) :
  MultilayerLSTMCell_forward self1 x
    ((λ l : list (T2 * T2), Some <$> l) <$> ((λ hc, [hc]) <$> s))
  = hc ← LSTMCell_forward unit1 x s; Some [hc].
Proof.
  unfold MultilayerLSTMCell_forward. simpl.
  unfold layer_step, layer_input, with_raw_input. simpl.
  destruct s as [hc|]; simpl;
    by destruct (LSTMCell_forward _ _ _).
Qed.

Lemma stack_hidden_one (hc : T2 * T2) :
  stack_hidden [hc] = unsqueeze12 hc.1.
Proof.
  unfold stack_hidden. simpl. by destruct (unsqueeze12 hc.1).
Qed.

Lemma apply_reset_one (reset : option T2) (t : nat) (hc : T2 * T2) :
  apply_reset reset t [hc]
  = hc' ← (match reset with
           | None => Some hc
           | Some reset =>
               reset_t ← select_col reset t;
               if any_gt_eps reset_t then scale_entry reset_t hc else Some hc
           end);
    Some [hc'].
Proof.
  destruct reset as [r|]; simpl; [|done].
  destruct (select_col r t) as [reset_t|]; simpl; [|done].
  destruct (any_gt_eps reset_t); [|done]. simpl.
  by destruct (scale_entry reset_t hc).
Qed.

Lemma time_loop_one_layer (input_ : T3) (reset : option T2) (ts : list nat) :
  ∀ (s : option (T2 * T2)) (outs : list T4),
    snd <$> time_loop self1 input_ reset ts ((λ hc, [hc]) <$> s, outs)
    = single_loop unit1 input_ reset ts s outs.
Proof.
  induction ts as [|t ts IH]; intros s outs; [done|].
  cbn [time_loop single_loop]. unfold time_step. cbn [fst snd].
  destruct (select1 input_ t) as [x|]; [|done]. cbn [mbind option_bind].
  rewrite forward_one_layer.
  destruct (LSTMCell_forward unit1 x s) as [hc|]; [|done].
  cbn [mbind option_bind]. rewrite stack_hidden_one.
  destruct (unsqueeze12 hc.1) as [o|]; [|done].
  cbn [mbind option_bind]. rewrite apply_reset_one.
  destruct (match reset with
            | None => Some hc
            | Some r => _
            end) as [hc'|]; [|done].
  cbn [mbind option_bind]. apply (IH (Some hc')).
Qed.

End one_layer.

(** C6. With [layers=1], [every_layer_input=False] and
    [use_previous_higher=False], [MultilayerLSTM.forward] is a single LSTM
    unit stepped over the sequence: at every timestep the unit is fed the
    input of that timestep and the carried [(h, c)], and its hidden output
    is what is emitted. *)
Theorem one_layer_is_single_lstm
    (input_size hid : nat)
    (kernels : nat → list R → list R → list R → list R * list R)
    (input_ : T3) (reset : option T2) :
  MultilayerLSTM_forward
    (MultilayerLSTMCell_init input_size hid 1 false false kernels)
    input_ reset
  = single_lstm_run (mkLSTMCell input_size hid (kernels 0)) input_ reset.
Proof.
  unfold MultilayerLSTM_forward, single_lstm_run.
  destruct (shape input_ !! 1) as [l|]; [|done]. cbn [mbind option_bind].
  rewrite <- (time_loop_one_layer input_size hid kernels input_ reset
                (seq 0 l) None []).
  cbn [fmap option_fmap option_map].
  by destruct (time_loop _ _ _ _ _).
Qed.

(** ** Two runs that agree on one batch element *)

Lemma cat1_row_eq (i : nat) (a1 c1 a2 c2 o1 o2 : T2) :
  cat1 a1 c1 = Some o1 → cat1 a2 c2 = Some o2 →
  row_eq i a1 a2 → row_eq i c1 c2 → row_eq i o1 o2.
Proof.
  unfold cat1, row_eq. intros H1 H2 Ha Hc.
  destruct (shape a1) as [|? [|? [|]]]; try done.
  destruct (shape c1) as [|? [|? [|]]]; try done.
  destruct (shape a2) as [|? [|? [|]]]; try done.
  destruct (shape c2) as [|? [|? [|]]]; try done.
  repeat case_guard; simplify_eq/=.
  by rewrite !lookup_zip_with, Ha, Hc.
Qed.

Lemma new_zeros_row (b n i : nat) :
  i < b → data (new_zeros b n) !! i = Some (replicate n rzero).
Proof. intros Hi. simpl. by apply lookup_replicate_2. Qed.

Lemma LSTMCell_forward_row_eq (unit_ : LSTMCell) (i b1 b2 n1 n2 : nat)
    (x1 x2 : T2) (e1 e2 : entry) (o1 o2 : T2 * T2) :
  i < b1 → i < b2 → shape x1 = [b1; n1] → shape x2 = [b2; n2] →
  row_eq i x1 x2 → entry_eq i e1 e2 →
  LSTMCell_forward unit_ x1 e1 = Some o1 →
  LSTMCell_forward unit_ x2 e2 = Some o2 →
  state_eq i o1 o2.
Proof.
  intros Hi1 Hi2 Hs1 Hs2 Hx He. unfold LSTMCell_forward. rewrite Hs1, Hs2.
  set (hc1 := default (new_zeros b1 _, new_zeros b1 _) e1).
  set (hc2 := default (new_zeros b2 _, new_zeros b2 _) e2).
  assert (Hhc : state_eq i hc1 hc2).
  { destruct He as [hc1' hc2' Hhc|]; [exact Hhc|].
    split; unfold row_eq; simpl; by rewrite !lookup_replicate_2. }
  destruct Hhc as [Hh Hc]. unfold row_eq in *.
  intros H1 H2. repeat case_guard; try done.
  cbn [mbind option_bind] in H1, H2. injection H1 as <-. injection H2 as <-.
  split; unfold row_eq; cbn [data fst snd];
    rewrite !list_lookup_fmap, !lookup_zip_with, Hx, Hh;
    destruct (data x2 !! i), (data hc2.1 !! i);
    cbn [mbind option_bind]; rewrite ?Hc; done.
Qed.

Lemma prev_higher_row_eq (self : MultilayerLSTMCell) (i b1 b2 w1 w2 : nat)
    (hx1 hx2 : list entry) (layer : nat) (r1 r2 p1 p2 : T2) :
  i < b1 → i < b2 → shape r1 = [b1; w1] → shape r2 = [b2; w2] →
  Forall2 (entry_eq i) hx1 hx2 →
  prev_higher self hx1 layer r1 = Some p1 →
  prev_higher self hx2 layer r2 = Some p2 →
  row_eq i p1 p2.
Proof.
  intros Hi1 Hi2 Hs1 Hs2 Hhx. unfold prev_higher. rewrite Hs1, Hs2.
  destruct (hx1 !! (layer + 1)) as [e1|] eqn:He1; [|done].
  destruct (hx2 !! (layer + 1)) as [e2|] eqn:He2; [|done].
  pose proof (Forall2_lookup_lr _ _ _ _ _ _ Hhx He1 He2) as He.
  simpl. destruct He as [hc1 hc2 [Hh _]|]; simpl; intros; simplify_eq.
  - done.
  - unfold row_eq. by rewrite !new_zeros_row.
Qed.

Section agree.
Variables (input_size hid L : nat) (eli uph : bool).
Variable kernels : nat → list R → list R → list R → list R * list R.
Hypothesis Hkernels : kernels_ok input_size hid L eli uph kernels.
Variables (i b1 b2 : nat).
Hypothesis Hi1 : i < b1.
Hypothesis Hi2 : i < b2.

Abbreviation self :=
  (MultilayerLSTMCell_init input_size hid L eli uph kernels).

Lemma layer_step_row_eq (x1 x2 : T2) (hx1 hx2 : list entry) (layer : nat)
    (rec1 rec2 : T2) (o1 o2 : T2 * T2) :
  has_shape2 b1 input_size x1 → has_shape2 b2 input_size x2 →
  row_eq i x1 x2 →
  length hx1 = L → Forall (entry_ok b1 hid) hx1 →
  length hx2 = L → Forall (entry_ok b2 hid) hx2 →
  Forall2 (entry_eq i) hx1 hx2 →
  layer < L →
  has_shape2 b1 (if decide (layer = 0) then input_size else hid) rec1 →
  has_shape2 b2 (if decide (layer = 0) then input_size else hid) rec2 →
  row_eq i rec1 rec2 →
  layer_step self x1 hx1 layer rec1 = Some o1 →
  layer_step self x2 hx2 layer rec2 = Some o2 →
  state_eq i o1 o2.
Proof.
  intros Hx1 Hx2 Hx Hl1 Hok1 Hl2 Hok2 Hhx Hlt Hr1 Hr2 Hr.
  unfold layer_step.
  destruct (layer_input_spec input_size hid L eli uph kernels Hkernels x1 hx1 b1
              layer rec1 Hx1 Hl1 Hok1 Hlt Hr1) as (y1 & Hy1 & Hys1).
  destruct (layer_input_spec input_size hid L eli uph kernels Hkernels x2 hx2 b2
              layer rec2 Hx2 Hl2 Hok2 Hlt Hr2) as (y2 & Hy2 & Hys2).
  rewrite Hy1, Hy2. cbn [mbind option_bind].
  rewrite init_lstm_cells by done. cbn [mbind option_bind].
  destruct (hx1 !! layer) as [e1|] eqn:He1; [|done].
  destruct (hx2 !! layer) as [e2|] eqn:He2; [|done]. cbn [mbind option_bind].
  eapply (LSTMCell_forward_row_eq _ i b1 b2 _ _ y1 y2 e1 e2);
    [done|done|apply Hys1|apply Hys2| |].
  2:{ exact (Forall2_lookup_lr _ _ _ _ _ _ Hhx He1 He2). }
  (* the inputs of the two units agree on row [i] *)
  clear He1 He2 e1 e2. revert Hy1 Hy2.
  unfold layer_input, with_raw_input.
  change (every_layer_input self) with eli.
  change (use_previous_higher self) with uph.
  change (layers self) with L.
  assert (∀ (bb : nat) (x rec : T2) r,
            has_shape2 bb input_size x →
            has_shape2 bb (if decide (layer = 0) then input_size else hid) rec →
            (if bool_decide (0 < layer) && eli
             then cat1 rec x else Some rec) = Some r →
            ∃ w, shape r = [bb; w]) as Hshape.
  { intros bb x rec r Hxs Hrs Hcat.
    destruct (bool_decide (0 < layer) && eli).
    - destruct (cat1_spec rec x bb _ _ Hrs Hxs) as (o & Ho & [Hos _] & _).
      rewrite Hcat in Ho. injection Ho as ->. eauto.
    - injection Hcat as <-. destruct Hrs as [Hs _]. eauto. }
  destruct (if bool_decide (0 < layer) && eli
            then cat1 rec1 x1 else Some rec1) as [r1|] eqn:Hc1; [|done].
  destruct (if bool_decide (0 < layer) && eli
            then cat1 rec2 x2 else Some rec2) as [r2|] eqn:Hc2; [|done].
  destruct (Hshape b1 x1 rec1 r1 Hx1 Hr1 Hc1) as [w1 Hw1].
  destruct (Hshape b2 x2 rec2 r2 Hx2 Hr2 Hc2) as [w2 Hw2].
  assert (Hr12 : row_eq i r1 r2).
  { destruct (bool_decide (0 < layer) && eli).
    - by apply (cat1_row_eq i rec1 x1 rec2 x2).
    - by simplify_eq. }
  simpl. destruct (bool_decide (layer < L - 1) && uph).
  - destruct (prev_higher self hx1 layer r1) as [p1|] eqn:Hp1; [|done].
    destruct (prev_higher self hx2 layer r2) as [p2|] eqn:Hp2; [|done].
    simpl. intros Hy1 Hy2.
    apply (cat1_row_eq i r1 p1 r2 p2); try done.
    by apply (prev_higher_row_eq self i b1 b2 w1 w2 hx1 hx2 layer r1 r2).
  - intros. by simplify_eq.
Qed.

Lemma layer_loop_row_eq (x1 x2 : T2) (hx1 hx2 : list entry) :
  has_shape2 b1 input_size x1 → has_shape2 b2 input_size x2 →
  row_eq i x1 x2 →
  length hx1 = L → Forall (entry_ok b1 hid) hx1 →
  length hx2 = L → Forall (entry_ok b2 hid) hx2 →
  Forall2 (entry_eq i) hx1 hx2 →
  ∀ n a rec1 rec2 acc1 acc2 outs1 outs2,
    a + n = L →
    has_shape2 b1 (if decide (a = 0) then input_size else hid) rec1 →
    has_shape2 b2 (if decide (a = 0) then input_size else hid) rec2 →
    row_eq i rec1 rec2 → stack_eq i acc1 acc2 →
    layer_loop self x1 hx1 (seq a n) rec1 acc1 = Some outs1 →
    layer_loop self x2 hx2 (seq a n) rec2 acc2 = Some outs2 →
    stack_eq i outs1 outs2.
Proof.
  intros Hx1 Hx2 Hx Hl1 Hok1 Hl2 Hok2 Hhx.
  induction n as [|n IH];
    intros a rec1 rec2 acc1 acc2 outs1 outs2 Han Hr1 Hr2 Hr Hacc; simpl.
  - intros. by simplify_eq.
  - destruct (layer_step_spec input_size hid L eli uph kernels Hkernels
                x1 hx1 b1 a rec1 Hx1 Hl1 Hok1) as (o1 & Ho1 & Hos1);
      [lia|done|].
    destruct (layer_step_spec input_size hid L eli uph kernels Hkernels
                x2 hx2 b2 a rec2 Hx2 Hl2 Hok2) as (o2 & Ho2 & Hos2);
      [lia|done|].
    rewrite Ho1, Ho2. simpl.
    assert (Ho : state_eq i o1 o2).
    { apply (layer_step_row_eq x1 x2 hx1 hx2 a rec1 rec2); try done. lia. }
    apply IH; try done.
    + lia.
    + destruct (decide (S a = 0)); [lia|]. apply Hos1.
    + destruct (decide (S a = 0)); [lia|]. apply Hos2.
    + apply Ho.
    + apply Forall2_app; [done|]. by constructor.
Qed.

Lemma forward_row_eq (x1 x2 : T2) (s1 s2 : option (list (T2 * T2)))
    (outs1 outs2 : list (T2 * T2)) :
  has_shape2 b1 input_size x1 → has_shape2 b2 input_size x2 →
  row_eq i x1 x2 →
  hx_ok b1 hid L ((λ l : list (T2 * T2), Some <$> l) <$> s1) →
  hx_ok b2 hid L ((λ l : list (T2 * T2), Some <$> l) <$> s2) →
  option_Forall2 (stack_eq i) s1 s2 →
  MultilayerLSTMCell_forward self x1
    ((λ l : list (T2 * T2), Some <$> l) <$> s1) = Some outs1 →
  MultilayerLSTMCell_forward self x2
    ((λ l : list (T2 * T2), Some <$> l) <$> s2) = Some outs2 →
  stack_eq i outs1 outs2.
Proof.
  intros Hx1 Hx2 Hx Hs1 Hs2 Hs. unfold MultilayerLSTMCell_forward.
  change (layers self) with L.
  apply (layer_loop_row_eq x1 x2 _ _ Hx1 Hx2 Hx); try done.
  - destruct s1; simpl in *; [apply Hs1|by rewrite length_replicate].
  - destruct s1; simpl in *; [apply Hs1|by apply Forall_replicate].
  - destruct s2; simpl in *; [apply Hs2|by rewrite length_replicate].
  - destruct s2; simpl in *; [apply Hs2|by apply Forall_replicate].
  - destruct Hs as [l1 l2 Hl|]; simpl.
    + apply Forall2_fmap. eapply Forall2_impl; [exact Hl|].
      intros hc1 hc2 Hhc. by constructor.
    + apply Forall2_replicate. constructor.
  - constructor.
Qed.

End agree.

Lemma scale_or_keep_row_eq `{!ScalarLaws R} (i b1 b2 n : nat)
    (col1 col2 : list R) (any1 any2 : bool) (h1 h2 : T2) (x : R) :
  i < b1 → i < b2 →
  has_shape2 b1 n h1 → has_shape2 b2 n h2 → row_eq i h1 h2 →
  col1 !! i = Some x → col2 !! i = Some x →
  x = rzero ∨ (any1 = true ∧ any2 = true) →
  row_eq i (if any1 then scale_rows col1 h1 else h1)
           (if any2 then scale_rows col2 h2 else h2).
Proof.
  intros Hi1 Hi2 [_ [Hl1 _]] [_ [Hl2 _]] Hh Hc1 Hc2 Hx. unfold row_eq in *.
  destruct (lookup_lt_is_Some_2 (data h1) i) as [row1 Hr1]; [lia|].
  destruct (lookup_lt_is_Some_2 (data h2) i) as [row2 Hr2]; [lia|].
  assert (row1 = row2) as <- by congruence.
  pose proof (scale_rows_lookup col1 h1 i row1 x Hr1 Hc1) as E1.
  pose proof (scale_rows_lookup col2 h2 i row1 x Hr2 Hc2) as E2.
  destruct Hx as [->|[-> ->]].
  - rewrite fmap_scale_zero in E1, E2.
    destruct any1, any2; congruence.
  - congruence.
Qed.

Section agree_runs.
Context `{!ScalarLaws R}.
Variables (input_size hid L : nat) (eli uph : bool).
Variable kernels : nat → list R → list R → list R → list R * list R.
Hypothesis Hkernels : kernels_ok input_size hid L eli uph kernels.
Hypothesis HL : 1 ≤ L.
Variables (i b1 b2 l : nat) (input1 input2 : T3) (reset1 reset2 : option T2).
Hypothesis Hi1 : i < b1.
Hypothesis Hi2 : i < b2.
Hypothesis Hinput1 : has_shape3 b1 l input_size input1.
Hypothesis Hinput2 : has_shape3 b2 l input_size input2.
Hypothesis Hreset1 : reset_ok b1 l reset1.
Hypothesis Hreset2 : reset_ok b2 l reset2.
Hypothesis Hinput : data input1 !! i = data input2 !! i.
Hypothesis Hreset : option_Forall2 (row_eq i) reset1 reset2.
Hypothesis Hflag : ∀ r t x,
  reset1 = Some r → at2 (data r) i t = Some x →
  x = rzero ∨ rgtb x reps = true.

Abbreviation self :=
  (MultilayerLSTMCell_init input_size hid L eli uph kernels).

Lemma reset_rule_row_eq (t : nat) (new1 new2 : list (T2 * T2)) :
  t < l →
  Forall (state_ok b1 hid) new1 → Forall (state_ok b2 hid) new2 →
  stack_eq i new1 new2 →
  stack_eq i (reset_rule reset1 t new1) (reset_rule reset2 t new2).
Proof.
  intros Ht Hok1 Hok2 Hnew.
  destruct Hreset as [r1 r2 Hr|]; [|done]. simpl.
  destruct (reset_col_spec r1 b1 l t Hreset1 Ht) as (_ & Hcl1 & Hcol1).
  destruct (reset_col_spec r2 b2 l t Hreset2 Ht) as (_ & Hcl2 & Hcol2).
  destruct (lookup_lt_is_Some_2 (reset_col r1 t) i) as [x Hx1]; [lia|].
  assert (Hx2 : reset_col r2 t !! i = Some x).
  { rewrite Hcol2. unfold at2. rewrite <- Hr. fold (at2 (data r1) i t).
    by rewrite <- Hcol1. }
  assert (Hx : x = rzero ∨ (col_any_gt (reset_col r1 t) = true
                            ∧ col_any_gt (reset_col r2 t) = true)).
  { destruct (Hflag r1 t x) as [->|Hgt]; [done|by rewrite <- Hcol1|by left|].
    right. split; apply col_any_gt_true; eauto. }
  set (any1 := col_any_gt (reset_col r1 t)) in *.
  set (any2 := col_any_gt (reset_col r2 t)) in *.
  assert (Hgoal : stack_eq i
            ((λ hc, if any1 then scale_state (reset_col r1 t) hc else hc)
               <$> new1)
            ((λ hc, if any2 then scale_state (reset_col r2 t) hc else hc)
               <$> new2)).
  { apply Forall2_fmap. apply Forall2_same_length_lookup.
    split; [by apply Forall2_length in Hnew|].
    intros k hc1 hc2 Hk1 Hk2.
    pose proof (Forall2_lookup_lr _ _ _ _ _ _ Hnew Hk1 Hk2) as [Hh Hc].
    rewrite Forall_lookup in Hok1, Hok2.
    destruct (Hok1 _ _ Hk1) as [Hsh1 Hsc1].
    destruct (Hok2 _ _ Hk2) as [Hsh2 Hsc2].
    pose proof (scale_or_keep_row_eq i b1 b2 hid _ _ any1 any2 _ _ x
                  Hi1 Hi2 Hsh1 Hsh2 Hh Hx1 Hx2 Hx) as Eh.
    pose proof (scale_or_keep_row_eq i b1 b2 hid _ _ any1 any2 _ _ x
                  Hi1 Hi2 Hsc1 Hsc2 Hc Hx1 Hx2 Hx) as Ec.
    split; destruct any1, any2; done. }
  destruct any1, any2; by rewrite ?list_fmap_id in Hgoal.
Qed.

Lemma step_agree (t : nat) st1 st2 :
    t < l →
    run_to self input1 reset1 t = Some st1 →
    run_to self input2 reset2 t = Some st2 →
    loop_inv b1 hid L t st1 → loop_inv b2 hid L t st2 →
    option_Forall2 (stack_eq i) st1.1 st2.1 →
    ∃ n1 n2 o1 o2,
      new_stack self input1 reset1 t = Some n1
      ∧ new_stack self input2 reset2 t = Some n2
      ∧ stack_eq i n1 n2
      ∧ Forall (state_ok b1 hid) n1 ∧ Forall (state_ok b2 hid) n2
      ∧ time_step self input1 reset1 st1 t
        = Some (Some (reset_rule reset1 t n1), st1.2 ++ [o1])
      ∧ time_step self input2 reset2 st2 t
        = Some (Some (reset_rule reset2 t n2), st2.2 ++ [o2])
      ∧ loop_inv b1 hid L (S t) (Some (reset_rule reset1 t n1), st1.2 ++ [o1])
      ∧ loop_inv b2 hid L (S t) (Some (reset_rule reset2 t n2), st2.2 ++ [o2]).
Proof.
  intros Ht Hrun1 Hrun2 Hinv1 Hinv2 Hst.
  destruct (time_step_spec input_size hid L eli uph kernels Hkernels HL
              b1 l input1 reset1 Hinput1 Hreset1 t st1 Ht Hinv1)
    as (x1 & n1 & o1 & Hsel1 & Hxs1 & Hn1 & _ & Hok1 & _ & _ & Hstep1 & Hinv1').
  destruct (time_step_spec input_size hid L eli uph kernels Hkernels HL
              b2 l input2 reset2 Hinput2 Hreset2 t st2 Ht Hinv2)
    as (x2 & n2 & o2 & Hsel2 & Hxs2 & Hn2 & _ & Hok2 & _ & _ & Hstep2 & Hinv2').
  exists n1, n2, o1, o2.
  assert (Hx : row_eq i x1 x2).
  { destruct (select1_spec input1 b1 l input_size t Hinput1 Ht)
      as (d1 & Hd1 & _ & Hlk1).
    destruct (select1_spec input2 b2 l input_size t Hinput2 Ht)
      as (d2 & Hd2 & _ & Hlk2).
    rewrite Hsel1 in Hd1. rewrite Hsel2 in Hd2.
    injection Hd1 as ->. injection Hd2 as ->.
    unfold row_eq. simpl. by rewrite Hlk1, Hlk2, Hinput. }
  assert (Hn : stack_eq i n1 n2).
  { apply (forward_row_eq input_size hid L eli uph kernels Hkernels
             i b1 b2 Hi1 Hi2 x1 x2 st1.1 st2.1 n1 n2); try done.
    - destruct Hinv1 as [Hs _]. destruct st1.1; simpl; [|done].
      destruct Hs as (_ & ? & ?). rewrite length_fmap.
      split; [done|]. by apply Forall_fmap.
    - destruct Hinv2 as [Hs _]. destruct st2.1; simpl; [|done].
      destruct Hs as (_ & ? & ?). rewrite length_fmap.
      split; [done|]. by apply Forall_fmap. }
  split.
  { unfold new_stack, carried. rewrite Hrun1. simpl. by rewrite Hsel1. }
  split.
  { unfold new_stack, carried. rewrite Hrun2. simpl. by rewrite Hsel2. }
  done.
Qed.

Lemma run_to_agree (t : nat) :
  t ≤ l →
  ∃ st1 st2,
    run_to self input1 reset1 t = Some st1
    ∧ run_to self input2 reset2 t = Some st2
    ∧ loop_inv b1 hid L t st1 ∧ loop_inv b2 hid L t st2
    ∧ option_Forall2 (stack_eq i) st1.1 st2.1
    ∧ (t < l →
       ∃ n1 n2, new_stack self input1 reset1 t = Some n1
                ∧ new_stack self input2 reset2 t = Some n2
                ∧ stack_eq i n1 n2).
Proof.
  induction t as [|t IH]; intros Ht.
  - exists (None, []), (None, []).
    assert (Hinv0 : ∀ bb, loop_inv (R:=R) bb hid L 0 (None, [])).
    { intros bb. by repeat split. }
    split; [done|]. split; [done|]. split; [done|]. split; [done|].
    split; [constructor|]. intros Hlt.
    destruct (step_agree 0 (None, []) (None, []) Hlt eq_refl eq_refl
                (Hinv0 b1) (Hinv0 b2)) as (n1 & n2 & _ & _ & ? & ? & ? & _);
      [constructor|]. eauto.
  - destruct IH as (st1 & st2 & Hrun1 & Hrun2 & Hinv1 & Hinv2 & Hst & _);
      [lia|].
    destruct (step_agree t st1 st2 ltac:(lia) Hrun1 Hrun2 Hinv1 Hinv2 Hst)
      as (n1 & n2 & o1 & o2 & _ & _ & Hn & Hok1 & Hok2
          & Hstep1 & Hstep2 & Hinv1' & Hinv2').
    assert (HrunS1 := run_to_S self input1 reset1 t).
    assert (HrunS2 := run_to_S self input2 reset2 t).
    rewrite Hrun1 in HrunS1. rewrite Hrun2 in HrunS2. simpl in HrunS1, HrunS2.
    rewrite Hstep1 in HrunS1. rewrite Hstep2 in HrunS2.
    assert (Hst' : option_Forall2 (stack_eq i)
              (Some (reset_rule reset1 t n1)) (Some (reset_rule reset2 t n2))).
    { constructor. apply reset_rule_row_eq; [lia|done..]. }
    eexists _, _. split; [exact HrunS1|]. split; [exact HrunS2|].
    split; [done|]. split; [done|]. split; [done|]. intros Hlt.
    destruct (step_agree (S t) _ _ Hlt HrunS1 HrunS2 Hinv1' Hinv2' Hst')
      as (m1 & m2 & _ & _ & ? & ? & ? & _). eauto.
Qed.

End agree_runs.

Lemma rect3_ext (l k n : nat) (u1 u2 : list (list (list R))) :
  rect3 l k n u1 → rect3 l k n u2 →
  (∀ t j, t < l → u1 !! t ≫= (λ s, s !! j) = u2 !! t ≫= (λ s, s !! j)) →
  u1 = u2.
Proof.
  intros [Hl1 H1] [Hl2 H2] Hext. apply list_eq. intros t.
  destruct (decide (t < l)) as [Ht|Ht].
  - destruct (lookup_lt_is_Some_2 u1 t) as [a1 Ha1]; [lia|].
    destruct (lookup_lt_is_Some_2 u2 t) as [a2 Ha2]; [lia|].
    rewrite Ha1, Ha2. f_equal. apply list_eq. intros j.
    specialize (Hext t j Ht). by rewrite Ha1, Ha2 in Hext.
  - rewrite !(proj2 (lookup_ge_None _ _)) by lia. done.
Qed.

Lemma stack_eq_hidden_row (i k : nat) (n1 n2 : list (T2 * T2)) :
  stack_eq i n1 n2 →
  n1 !! k ≫= (λ hc, data hc.1 !! i) = n2 !! k ≫= (λ hc, data hc.1 !! i).
Proof.
  intros Hn. destruct (n1 !! k) as [hc1|] eqn:H1.
  - destruct (Forall2_lookup_l _ _ _ _ _ Hn H1) as (hc2 & -> & [Hh _]).
    exact Hh.
  - apply lookup_ge_None in H1. apply Forall2_length in Hn.
    rewrite (proj2 (lookup_ge_None n2 k)) by lia. done.
Qed.

(** C2 (as amended). Two runs whose inputs and resets agree on batch
    element [i] produce identical outputs and carried state for element [i]
    at every timestep, provided every reset value of element [i] is either
    [0.0] or above [1e-6]. *)
Theorem batch_element_independent `{!ScalarLaws R}
    (input_size hid L : nat) (eli uph : bool)
    (kernels : nat → list R → list R → list R → list R * list R)
    (i b1 b2 l : nat) (input1 input2 : T3) (reset1 reset2 : option T2) :
  kernels_ok input_size hid L eli uph kernels →
  1 ≤ L → 1 ≤ l →
  i < b1 → i < b2 →
  has_shape3 b1 l input_size input1 →
  has_shape3 b2 l input_size input2 →
  reset_ok b1 l reset1 →
  reset_ok b2 l reset2 →
  data input1 !! i = data input2 !! i →
  option_Forall2 (row_eq i) reset1 reset2 →
  (∀ r t x, reset1 = Some r → at2 (data r) i t = Some x →
            x = rzero ∨ rgtb x reps = true) →
  ∃ out1 out2,
    MultilayerLSTM_forward
      (MultilayerLSTMCell_init input_size hid L eli uph kernels)
      input1 reset1 = Some out1
    ∧ MultilayerLSTM_forward
        (MultilayerLSTMCell_init input_size hid L eli uph kernels)
        input2 reset2 = Some out2
    ∧ data out1 !! i = data out2 !! i
    ∧ ∀ t, t ≤ l →
        ∃ s1 s2,
          carried (MultilayerLSTMCell_init input_size hid L eli uph kernels)
            input1 reset1 t = Some s1
          ∧ carried (MultilayerLSTMCell_init input_size hid L eli uph kernels)
              input2 reset2 t = Some s2
          ∧ option_Forall2 (stack_eq i) s1 s2.
Proof.
  intros Hk HL Hl Hi1 Hi2 Hin1 Hin2 Hr1 Hr2 Hin Hr Hflag.
  destruct (forward_output input_size hid L eli uph kernels Hk HL
              b1 l input1 reset1 Hin1 Hr1) as (out1 & Ho1 & [_ Hd1] & Hat1);
    [lia|].
  destruct (forward_output input_size hid L eli uph kernels Hk HL
              b2 l input2 reset2 Hin2 Hr2) as (out2 & Ho2 & [_ Hd2] & Hat2);
    [lia|].
  exists out1, out2. split; [done|]. split; [done|]. split.
  - destruct (lookup_lt_is_Some_2 (data out1) i) as [u1 Hu1];
      [destruct Hd1; lia|].
    destruct (lookup_lt_is_Some_2 (data out2) i) as [u2 Hu2];
      [destruct Hd2; lia|].
    rewrite Hu1, Hu2. f_equal.
    apply (rect3_ext l L hid);
      [exact (rect4_lookup _ _ _ _ _ _ _ Hd1 Hu1)
      |exact (rect4_lookup _ _ _ _ _ _ _ Hd2 Hu2)|].
    intros t j Ht.
    specialize (Hat1 t i j Ht). specialize (Hat2 t i j Ht).
    unfold at3, at2 in Hat1, Hat2. rewrite Hu1 in Hat1. rewrite Hu2 in Hat2.
    simpl in Hat1, Hat2. rewrite Hat1, Hat2.
    destruct (run_to_agree input_size hid L eli uph kernels Hk HL
                i b1 b2 l input1 input2 reset1 reset2 Hi1 Hi2
                Hin1 Hin2 Hr1 Hr2 Hin Hr Hflag t)
      as (_ & _ & _ & _ & _ & _ & _ & Hnew); [lia|].
    destruct (Hnew Ht) as (n1 & n2 & -> & -> & Hn). simpl.
    by apply stack_eq_hidden_row.
  - intros t Ht.
    destruct (run_to_agree input_size hid L eli uph kernels Hk HL
                i b1 b2 l input1 input2 reset1 reset2 Hi1 Hi2
                Hin1 Hin2 Hr1 Hr2 Hin Hr Hflag t Ht)
      as (st1 & st2 & Hrun1 & Hrun2 & _ & _ & Hst & _).
    exists st1.1, st2.1. unfold carried. by rewrite Hrun1, Hrun2.
Qed.

(** ** The store: what a call reads, allocates and writes *)

Abbreviation loc := positive.
Abbreviation store := (gmap loc (list entry)).

Lemma M_bind_unfold {A B} (m : M (R:=R) A) (f : A → M (R:=R) B) σ :
  (m ≫= f) σ = match m σ with
               | Some (a, σ') => f a σ'
               | None => None
               end.
Proof. done. Qed.

Lemma lift_bind {A B} (o : option A) (f : A → M (R:=R) B) σ :
  (lift o ≫= f) σ = match o with
                    | Some a => f a σ
                    | None => None
                    end.
Proof. rewrite M_bind_unfold. unfold lift. by destruct o. Qed.

Lemma read_item_bind {B} (p : loc) (k : nat) (f : entry → M (R:=R) B)
    (σ : store) (l : list entry) :
  σ !! p = Some l →
  (read_item p k ≫= f) σ = match l !! k with
                           | Some e => f e σ
                           | None => None
                           end.
Proof.
  intros Hp. rewrite M_bind_unfold. unfold read_item. rewrite Hp. simpl.
  by destruct (l !! k).
Qed.

Lemma layer_input_st_spec (self : MultilayerLSTMCell) (x : T2) (hx : loc)
    (layer : nat) (recent : T2) (σ : store) (hxl : list entry) :
  σ !! hx = Some hxl →
  layer_input_st self x hx layer recent σ
  = y ← layer_input self x hxl layer recent; Some (y, σ).
Proof.
  intros Hhx. unfold layer_input_st, layer_input. rewrite lift_bind.
  destruct (with_raw_input self x layer recent) as [r1|]; [|done].
  cbn [mbind option_bind].
  destruct (bool_decide (layer < layers self - 1) && use_previous_higher self);
    [|done].
  rewrite (read_item_bind _ _ _ _ _ Hhx). unfold prev_higher.
  destruct (hxl !! (layer + 1)) as [e|]; [|done]. cbn [mbind option_bind].
  rewrite lift_bind.
  destruct (match e with
            | Some hc => Some hc.1
            | None => _
            end) as [prev|]; [|done].
  cbn [mbind option_bind]. unfold lift. by destruct (cat1 r1 prev).
Qed.

Lemma layer_step_st_spec (self : MultilayerLSTMCell) (x : T2) (hx : loc)
    (layer : nat) (recent : T2) (σ : store) (hxl : list entry) :
  σ !! hx = Some hxl →
  layer_step_st self x hx layer recent σ
  = out ← layer_step self x hxl layer recent; Some (out, σ).
Proof.
  intros Hhx. unfold layer_step_st, layer_step. rewrite M_bind_unfold.
  rewrite (layer_input_st_spec _ _ _ _ _ _ _ Hhx).
  destruct (layer_input self x hxl layer recent) as [y|]; [|done].
  cbn [mbind option_bind]. rewrite lift_bind.
  destruct (lstm_cells self !! layer) as [unit_|]; [|done].
  cbn [mbind option_bind]. rewrite (read_item_bind _ _ _ _ _ Hhx).
  destruct (hxl !! layer) as [e|]; [|done]. cbn [mbind option_bind].
  unfold lift. by destruct (LSTMCell_forward unit_ y e).
Qed.

Lemma layer_loop_st_spec (self : MultilayerLSTMCell) (x : T2)
    (hx po : loc) (hxl : list entry) (ls : list nat) :
  hx ≠ po →
  ∀ (recent : T2) (acc : list (T2 * T2)) (σ : store),
    σ !! hx = Some hxl → σ !! po = Some (Some <$> acc) →
    layer_loop_st self x hx po ls recent σ
    = outs ← layer_loop self x hxl ls recent acc;
      Some ((), <[po := Some <$> outs]> σ).
Proof.
  intros Hne. induction ls as [|layer ls IH]; intros recent acc σ Hhx Hpo.
  - simpl. unfold mret, M_ret. by rewrite insert_id.
  - cbn [layer_loop_st layer_loop]. rewrite M_bind_unfold.
    rewrite (layer_step_st_spec _ _ _ _ _ _ _ Hhx).
    destruct (layer_step self x hxl layer recent) as [out|]; [|done].
    cbn [mbind option_bind]. rewrite M_bind_unfold.
    unfold append at 1. rewrite Hpo. cbn [mbind option_bind].
    rewrite (IH out.1 (acc ++ [out])).
    + destruct (layer_loop _ _ _ _ _ _) as [outs|]; [|done].
      cbn [mbind option_bind]. by rewrite insert_insert_eq.
    + by rewrite lookup_insert_ne.
    + rewrite lookup_insert_eq. by rewrite fmap_app.
Qed.

(** A call with a list object [p] as [hx]: the store afterwards is the store
    before plus one new object, the returned list. *)
Lemma forward_st_some (self : MultilayerLSTMCell) (x : T2) (p : loc)
    (hxl : list entry) (σ : store) :
  σ !! p = Some hxl →
  MultilayerLSTMCell_forward_st self x (Some p) σ
  = outs ← MultilayerLSTMCell_forward self x (Some hxl);
    Some (fresh (dom σ), <[fresh (dom σ) := Some <$> outs]> σ).
Proof.
  intros Hp. unfold MultilayerLSTMCell_forward_st, MultilayerLSTMCell_forward.
  rewrite M_bind_unfold. unfold mret at 1, M_ret at 1.
  rewrite M_bind_unfold. unfold alloc at 1. cbn zeta.
  set (q := fresh (dom σ)).
  assert (Hq : σ !! q = None).
  { apply not_elem_of_dom. apply is_fresh. }
  assert (Hne : p ≠ q).
  { intros ->. by rewrite Hq in Hp. }
  rewrite M_bind_unfold.
  rewrite (layer_loop_st_spec self x p q hxl _ Hne x []).
  - simpl. destruct (layer_loop _ _ _ _ _ _) as [outs|]; [|done].
    cbn [mbind option_bind]. unfold mret, M_ret. by rewrite insert_insert_eq.
  - by rewrite lookup_insert_ne.
  - by rewrite lookup_insert_eq.
Qed.

(** A call without [hx]: a list of [None]s is allocated first. *)
Lemma forward_st_none (self : MultilayerLSTMCell) (x : T2) (σ : store) :
  MultilayerLSTMCell_forward_st self x None σ
  = outs ← MultilayerLSTMCell_forward self x None;
    let σ1 := <[fresh (dom σ) := replicate (layers self) None]> σ in
    Some (fresh (dom σ1), <[fresh (dom σ1) := Some <$> outs]> σ1).
Proof.
  unfold MultilayerLSTMCell_forward_st, MultilayerLSTMCell_forward.
  rewrite M_bind_unfold. unfold alloc at 1. cbn zeta.
  set (p := fresh (dom σ)).
  set (σ1 := <[p := replicate (layers self) None]> σ).
  rewrite M_bind_unfold. unfold alloc at 1. cbn zeta.
  set (q := fresh (dom σ1)).
  assert (Hq : σ1 !! q = None).
  { apply not_elem_of_dom. apply is_fresh. }
  assert (Hp : σ1 !! p = Some (replicate (layers self) None)).
  { apply lookup_insert_eq. }
  assert (Hne : p ≠ q).
  { intros Heq. rewrite Heq in Hp. by rewrite Hq in Hp. }
  rewrite M_bind_unfold.
  rewrite (layer_loop_st_spec self x p q (replicate (layers self) None)
             _ Hne x []).
  - simpl. destruct (layer_loop _ _ _ _ _ _) as [outs|]; [|done].
    cbn [mbind option_bind]. unfold mret, M_ret. by rewrite insert_insert_eq.
  - by rewrite lookup_insert_ne.
  - by rewrite lookup_insert_eq.
Qed.

Lemma reset_loop_st_spec (q : loc) (reset_t : T2) (todo : list (T2 * T2)) :
  ∀ (done_ : list (T2 * T2)) (σ : store),
    σ !! q = Some (Some <$> (done_ ++ todo)) →
    reset_loop_st q reset_t (seq (length done_) (length todo)) σ
    = todo' ← mapM (scale_entry reset_t) todo;
      Some ((), <[q := Some <$> (done_ ++ todo')]> σ).
Proof.
  induction todo as [|hc todo IH]; intros done_ σ Hq.
  - simpl. unfold mret, M_ret. by rewrite insert_id.
  - cbn [length seq reset_loop_st mapM].
    rewrite (read_item_bind _ _ _ _ _ Hq).
    rewrite list_lookup_fmap, list_lookup_middle by done.
    cbn [fmap option_fmap option_map]. rewrite lift_bind, lift_bind.
    destruct (scale_entry reset_t hc) as [hc'|]; [|done].
    cbn [mbind option_bind]. rewrite M_bind_unfold.
    unfold write_item at 1. rewrite Hq. cbn [mbind option_bind].
    rewrite option_guard_True.
    2:{ rewrite length_fmap, length_app. simpl. lia. }
    replace (S (length done_)) with (length (done_ ++ [hc']))
      by (rewrite length_app; simpl; lia).
    rewrite (IH (done_ ++ [hc'])).
    + destruct (mapM (scale_entry reset_t) todo) as [todo'|]; [|done].
      cbn [mbind option_bind mret option_ret].
      by rewrite insert_insert_eq, <- app_assoc.
    + rewrite lookup_insert_eq. f_equal.
      rewrite <- app_assoc. simpl. rewrite !fmap_app. simpl.
      rewrite insert_app_r_alt by (rewrite length_fmap; lia).
      by rewrite length_fmap, Nat.sub_diag.
Qed.

Lemma apply_reset_st_spec (reset : option T2) (t : nat) (q : loc)
    (hx : list (T2 * T2)) (σ : store) :
  σ !! q = Some (Some <$> hx) →
  apply_reset_st reset t q σ
  = hx' ← apply_reset reset t hx; Some ((), <[q := Some <$> hx']> σ).
Proof.
  intros Hq. unfold apply_reset_st, apply_reset.
  destruct reset as [r|].
  2:{ simpl. unfold mret, M_ret. by rewrite insert_id. }
  rewrite lift_bind. destruct (select_col r t) as [reset_t|]; [|done].
  cbn [mbind option_bind]. destruct (any_gt_eps reset_t).
  - rewrite M_bind_unfold. unfold read_list at 1. rewrite Hq.
    cbn [mbind option_bind]. rewrite length_fmap.
    apply (reset_loop_st_spec q reset_t hx [] σ Hq).
  - unfold mret, M_ret. simpl. by rewrite insert_id.
Qed.

Lemma time_step_st_spec (cell : MultilayerLSTMCell) (input_ : T3)
    (reset : option T2) (t : nat) (s : option loc * list T4)
    (s' : option (list (T2 * T2)) * list T4) (σ : store) :
  st_rel σ s s' →
  res_rel (time_step_st cell input_ reset s t σ)
          (time_step cell input_ reset s' t).
Proof.
  intros [Houts Hst]. unfold time_step, time_step_st. rewrite lift_bind.
  destruct (select1 input_ t) as [x|]; [|done]. cbn [mbind option_bind].
  rewrite M_bind_unfold.
  assert (∃ q σ1,
    MultilayerLSTMCell_forward_st cell x s.1 σ
    = MultilayerLSTMCell_forward cell x
        ((λ l : list (T2 * T2), Some <$> l) <$> s'.1)
      ≫= (λ outs : list (T2 * T2),
            Some (q, <[q := (Some <$> outs : list entry)]> σ1)))
    as (q & σ1 & ->).
  { destruct s.1 as [p|], s'.1 as [hx|]; try done.
    - eexists _, _. by apply forward_st_some.
    - eexists _, _. simpl. rewrite forward_st_none. cbn zeta. reflexivity. }
  destruct (MultilayerLSTMCell_forward cell x _) as [outs|]; [|done].
  cbn [mbind option_bind]. rewrite M_bind_unfold. unfold read_list at 1.
  rewrite lookup_insert_eq. cbn [mbind option_bind].
  rewrite lift_bind. rewrite mapM_fmap_Some by done.
  rewrite lift_bind. destruct (stack_hidden outs) as [o|]; [|done].
  cbn [mbind option_bind]. rewrite M_bind_unfold.
  rewrite (apply_reset_st_spec reset t q outs) by apply lookup_insert_eq.
  destruct (apply_reset reset t outs) as [hx'|]; [|done].
  cbn [mbind option_bind]. unfold mret, M_ret. simpl.
  split; simpl; [by rewrite Houts|]. apply lookup_insert_eq.
Qed.

Lemma time_loop_st_spec (cell : MultilayerLSTMCell) (input_ : T3)
    (reset : option T2) (ts : list nat) :
  ∀ (s : option loc * list T4) (s' : option (list (T2 * T2)) * list T4)
    (σ : store),
    st_rel σ s s' →
    res_rel (time_loop_st cell input_ reset ts s σ)
            (time_loop cell input_ reset ts s').
Proof.
  induction ts as [|t ts IH]; intros s s' σ Hrel; [done|].
  cbn [time_loop time_loop_st]. rewrite M_bind_unfold.
  pose proof (time_step_st_spec cell input_ reset t s s' σ Hrel) as Hstep.
  destruct (time_step_st cell input_ reset s t σ) as [[r σ']|],
    (time_step cell input_ reset s' t) as [r'|]; try done.
  cbn [mbind option_bind]. apply IH, Hstep.
Qed.

(** What a run returns does not depend on the store it starts in. *)
Lemma forward_st_output (cell : MultilayerLSTMCell) (input_ : T3)
    (reset : option T2) (σ : store) :
  fst <$> MultilayerLSTM_forward_st cell input_ reset σ
  = MultilayerLSTM_forward cell input_ reset.
Proof.
  unfold MultilayerLSTM_forward_st, MultilayerLSTM_forward.
  rewrite lift_bind. destruct (shape input_ !! 1) as [l|]; [|done].
  cbn [mbind option_bind]. rewrite M_bind_unfold.
  assert (Hloop := time_loop_st_spec cell input_ reset (seq 0 l)
                     (None, []) (None, []) σ (conj eq_refl I)).
  destruct (time_loop_st cell input_ reset (seq 0 l) (None, []) σ)
    as [[r σ']|],
    (time_loop cell input_ reset (seq 0 l) (None, [])) as [r'|]; try done.
  destruct Hloop as [Houts _]. cbn [mbind option_bind]. unfold lift.
  rewrite Houts. by destruct (cat_list cat4_dim1 r'.2).
Qed.

(** C7. [MultilayerLSTM.forward] is deterministic: whatever the state of
    the store of list objects a run starts from (in particular the one a
    previous run left behind), the same configuration, input sequence and
    reset signal give the same output, and nothing is carried over from one
    run to the next. *)
Theorem forward_deterministic (cell : MultilayerLSTMCell) (input_ : T3)
    (reset : option T2) (σ1 σ2 : store) :
  fst <$> MultilayerLSTM_forward_st cell input_ reset σ1
  = fst <$> MultilayerLSTM_forward_st cell input_ reset σ2
  ∧ (∀ out σ1',
       MultilayerLSTM_forward_st cell input_ reset σ1 = Some (out, σ1') →
       ∃ σ1'', MultilayerLSTM_forward_st cell input_ reset σ1'
               = Some (out, σ1''))
  ∧ fst <$> MultilayerLSTM_forward_st cell input_ reset σ1
    = MultilayerLSTM_forward cell input_ reset.
Proof.
  split; [by rewrite !forward_st_output|]. split; [|apply forward_st_output].
  intros out σ1' Hrun.
  pose proof (forward_st_output cell input_ reset σ1) as E1.
  pose proof (forward_st_output cell input_ reset σ1') as E2.
  rewrite Hrun in E1. rewrite <- E1 in E2. simpl in E2.
  destruct (MultilayerLSTM_forward_st cell input_ reset σ1') as [[o σ'']|];
    [|done].
  injection E2 as ->. eauto.
Qed.

(** C8. [MultilayerLSTMCell.forward] does not mutate its argument [hx]: a
    call with a list object of [L] entries returns a newly allocated list,
    and leaves the list [hx] (and every other object) as it was. *)
Theorem forward_leaves_hx_unchanged
    (input_size hid L : nat) (eli uph : bool)
    (kernels : nat → list R → list R → list R → list R * list R)
    (b : nat) (x : T2) (p : loc) (hxl : list entry) (σ : store) :
  kernels_ok input_size hid L eli uph kernels →
  has_shape2 b input_size x →
  σ !! p = Some hxl →
  length hxl = L →
  Forall (entry_ok b hid) hxl →
  ∃ q outs σ',
    MultilayerLSTMCell_forward_st
      (MultilayerLSTMCell_init input_size hid L eli uph kernels) x (Some p) σ
    = Some (q, σ')
    ∧ σ' !! p = Some hxl
    ∧ σ !! q = None
    ∧ q ≠ p
    ∧ σ' !! q = Some (Some <$> outs)
    ∧ (∀ p', p' ≠ q → σ' !! p' = σ !! p')
    ∧ MultilayerLSTMCell_forward
        (MultilayerLSTMCell_init input_size hid L eli uph kernels) x
        (Some hxl) = Some outs.
Proof.
  intros Hk Hx Hp Hlen Hok.
  destruct (forward_spec input_size hid L eli uph kernels Hk b x (Some hxl))
    as (outs & Hout & _); [done|by split|].
  assert (Hq : σ !! fresh (dom σ) = None).
  { apply not_elem_of_dom. apply is_fresh. }
  assert (Hne : fresh (dom σ) ≠ p).
  { intros Heq. rewrite Heq in Hq. by rewrite Hq in Hp. }
  exists (fresh (dom σ)), outs, (<[fresh (dom σ) := Some <$> outs]> σ).
  split; [by rewrite (forward_st_some _ _ _ _ _ Hp), Hout|].
  split; [by rewrite lookup_insert_ne|]. split; [done|]. split; [done|].
  split; [apply lookup_insert_eq|]. split; [|done].
  intros p' Hp'. by rewrite lookup_insert_ne.
Qed.


(** X14. An empty sequence: [torch.cat] of no outputs is an error, so
    [MultilayerLSTM.forward] raises on an input of length 0, which is why
    the shape of the result is stated for sequences of length at least 1. *)
Lemma forward_empty_sequence (cell : MultilayerLSTMCell) (input_ : T3)
    (reset : option T2) (b n : nat) :
  shape input_ = [b; 0; n] → MultilayerLSTM_forward cell input_ reset = None.
Proof. intros Hs. unfold MultilayerLSTM_forward. by rewrite Hs. Qed.

(** ** Further properties of the cell *)

Section cell_edges.
Variables (input_size hid L : nat) (eli uph : bool).
Variable kernels : nat → list R → list R → list R → list R * list R.

Abbreviation self :=
  (MultilayerLSTMCell_init input_size hid L eli uph kernels).

Lemma with_raw_input_shape (x recent r1 : T2) (layer b n w : nat) :
  shape x = [b; n] → shape recent = [b; w] →
  with_raw_input self x layer recent = Some r1 →
  ∃ w', shape r1 = [b; w'].
Proof.
  intros Hx Hrec. unfold with_raw_input, cat1. rewrite Hx, Hrec.
  destruct (bool_decide (0 < layer) && every_layer_input self).
  - rewrite option_guard_True by done. intros [= <-]. simpl. eauto.
  - intros [= <-]. eauto.
Qed.

Lemma LSTMCell_forward_zero (unit_ : LSTMCell) (y : T2) (b w : nat) :
  shape y = [b; w] →
  LSTMCell_forward unit_ y
    (Some (new_zeros b (cell_hidden_size unit_),
           new_zeros b (cell_hidden_size unit_)))
  = LSTMCell_forward unit_ y None.
Proof. intros Hy. unfold LSTMCell_forward. by rewrite Hy. Qed.

Lemma LSTMCell_forward_out_shape (unit_ : LSTMCell) (y : T2) (e : entry)
    (b w : nat) (out : T2 * T2) :
  shape y = [b; w] → LSTMCell_forward unit_ y e = Some out →
  shape out.1 = [b; cell_hidden_size unit_].
Proof.
  intros Hy. unfold LSTMCell_forward. rewrite Hy. intros Hout.
  repeat case_guard; try done. cbn [mbind option_bind] in Hout.
  by injection Hout as <-.
Qed.

Lemma layer_step_zero (x recent : T2) (layer b n w : nat) :
  shape x = [b; n] → shape recent = [b; w] → layer < L →
  layer_step self x
    (replicate L (Some (new_zeros b hid, new_zeros b hid))) layer recent
  = layer_step self x (replicate L None) layer recent
  ∧ ∀ out, layer_step self x (replicate L None) layer recent = Some out →
           shape out.1 = [b; hid].
Proof.
  intros Hx Hrec Hlt. unfold layer_step, layer_input.
  destruct (with_raw_input self x layer recent) as [r1|] eqn:Hr1; [|done].
  destruct (with_raw_input_shape x recent r1 layer b n w Hx Hrec Hr1)
    as [w1 Hw1].
  cbn [mbind option_bind].
  change (layers self) with L. change (hidden_size self) with hid.
  assert (∃ oy : option T2,
    (if bool_decide (layer < L - 1) && use_previous_higher self
     then prev ← prev_higher self
                   (replicate L (Some (new_zeros b hid, new_zeros b hid)))
                   layer r1; cat1 r1 prev
     else Some r1) = oy
    ∧ (if bool_decide (layer < L - 1) && use_previous_higher self
       then prev ← prev_higher self (replicate L None) layer r1; cat1 r1 prev
       else Some r1) = oy
    ∧ ∀ y, oy = Some y → ∃ w2, shape y = [b; w2]) as (oy & -> & -> & Hy).
  { destruct (bool_decide (layer < L - 1) && use_previous_higher self)
      eqn:Htop.
    - apply andb_prop in Htop as [Htop _]. apply bool_decide_eq_true in Htop.
      unfold prev_higher. rewrite !lookup_replicate_2 by lia.
      cbn [mbind option_bind fst]. rewrite Hw1. cbn [lookup list_lookup].
      cbn [mbind option_bind]. change (hidden_size self) with hid.
      eexists. split; [done|]. split; [done|].
      intros y Hcat. unfold cat1 in Hcat. rewrite Hw1 in Hcat.
      cbn [shape new_zeros] in Hcat.
      rewrite option_guard_True in Hcat by done.
      injection Hcat as <-. simpl. eauto.
    - exists (Some r1). split; [done|]. split; [done|].
      intros y [= <-]. eauto. }
  destruct oy as [y|]; [|done]. destruct (Hy y eq_refl) as [w2 Hw2].
  cbn [mbind option_bind].
  destruct (lstm_cells self !! layer) as [unit_|] eqn:Hunit; [|done].
  cbn [mbind option_bind]. rewrite !lookup_replicate_2 by done.
  cbn [mbind option_bind].
  assert (Hhid : cell_hidden_size unit_ = hid).
  { unfold MultilayerLSTMCell_init in Hunit. simpl in Hunit.
    rewrite list_lookup_fmap in Hunit.
    destruct (seq 0 L !! layer); simpl in Hunit; [|done].
    by injection Hunit as <-. }
  rewrite <- Hhid. split.
  - by apply (LSTMCell_forward_zero unit_ y b w2).
  - intros out Hout. by apply (LSTMCell_forward_out_shape unit_ y None b w2).
Qed.

Lemma layer_loop_zero (x : T2) (b n : nat) :
  shape x = [b; n] →
  ∀ k a (recent : T2) (acc : list (T2 * T2)) w,
    a + k ≤ L → shape recent = [b; w] →
    layer_loop self x
      (replicate L (Some (new_zeros b hid, new_zeros b hid)))
      (seq a k) recent acc
    = layer_loop self x (replicate L None) (seq a k) recent acc.
Proof.
  intros Hx. induction k as [|k IH]; intros a recent acc w Hak Hrec; [done|].
  cbn [seq layer_loop].
  destruct (layer_step_zero x recent a b n w Hx Hrec) as [-> Hshape]; [lia|].
  destruct (layer_step self x (replicate L None) a recent) as [out|]; [|done].
  cbn [mbind option_bind]. apply (IH _ _ _ hid); [lia|]. by apply Hshape.
Qed.

End cell_edges.

(** X1. A stack of zero tensors is the same to the cell as no stack: with
    [hx] a list of [layers] tuples of zeros shaped [[batch, hidden_size]],
    [MultilayerLSTMCell.forward] returns what it returns for [hx=None]. *)
Theorem forward_zero_state_is_absent
    (input_size hid L : nat) (eli uph : bool)
    (kernels : nat → list R → list R → list R → list R * list R)
    (x : T2) (b n : nat) :
  shape x = [b; n] →
  MultilayerLSTMCell_forward
    (MultilayerLSTMCell_init input_size hid L eli uph kernels) x
    (Some (replicate L (Some (new_zeros b hid, new_zeros b hid))))
  = MultilayerLSTMCell_forward
      (MultilayerLSTMCell_init input_size hid L eli uph kernels) x None.
Proof.
  intros Hx. unfold MultilayerLSTMCell_forward. simpl.
  by apply (layer_loop_zero input_size hid L eli uph kernels x b n Hx L 0 x [] n).
Qed.

(** What a successful run of the loop over the layers has read of [hx]. *)
Lemma layer_loop_reads (self : MultilayerLSTMCell) (x : T2)
    (hx : list entry) (ls : list nat) (recent : T2) acc outs :
  layer_loop self x hx ls recent acc = Some outs →
  ∀ layer, layer ∈ ls → is_Some (hx !! layer).
Proof.
  intros Hloop layer Hin.
  apply layer_loop_steps in Hloop as (new & _ & _ & Hsteps).
  apply list_elem_of_lookup in Hin as [j Hj].
  destruct (Hsteps j layer Hj) as (rec & _ & Hstep & [out Hout]).
  rewrite Hout in Hstep. unfold layer_step in Hstep.
  destruct (layer_input self x hx layer rec); [|done].
  cbn [mbind option_bind] in Hstep.
  destruct (lstm_cells self !! layer); [|done].
  cbn [mbind option_bind] in Hstep. destruct (hx !! layer); [eauto|done].
Qed.

(** X2. A list [hx] with fewer entries than the cell has layers is an
    error: the loop indexes [hx[layer]] for every layer. *)
Theorem forward_short_hx_fails (self : MultilayerLSTMCell) (x : T2)
    (hx : list entry) :
  length hx < layers self →
  MultilayerLSTMCell_forward self x (Some hx) = None.
Proof.
  intros Hlen. unfold MultilayerLSTMCell_forward. simpl.
  destruct (layer_loop self x hx (seq 0 (layers self)) x []) as [outs|] eqn:Hl;
    [|done].
  destruct (layer_loop_reads _ _ _ _ _ _ _ Hl (length hx)) as [e He].
  - apply elem_of_seq. lia.
  - apply lookup_lt_Some in He. lia.
Qed.

Lemma layer_step_take (self : MultilayerLSTMCell) (x : T2) (hx : list entry)
    (layer : nat) (recent : T2) :
  layer < layers self →
  layer_step self x hx layer recent
  = layer_step self x (take (layers self) hx) layer recent.
Proof.
  intros Hlt. unfold layer_step, layer_input, prev_higher.
  rewrite (lookup_take_lt hx (layers self) layer) by done.
  destruct (with_raw_input self x layer recent) as [r1|]; [|done].
  cbn [mbind option_bind].
  destruct (bool_decide (layer < layers self - 1) && use_previous_higher self)
    eqn:Htop; [|done].
  apply andb_prop in Htop as [Htop _]. apply bool_decide_eq_true in Htop.
  by rewrite (lookup_take_lt hx (layers self) (layer + 1)) by lia.
Qed.

Lemma layer_loop_take (self : MultilayerLSTMCell) (x : T2) (hx : list entry) :
  ∀ k a (recent : T2) (acc : list (T2 * T2)),
    a + k ≤ layers self →
    layer_loop self x hx (seq a k) recent acc
    = layer_loop self x (take (layers self) hx) (seq a k) recent acc.
Proof.
  induction k as [|k IH]; intros a recent acc Hak; [done|].
  cbn [seq layer_loop]. rewrite <- layer_step_take by lia.
  destruct (layer_step self x hx a recent) as [out|]; [|done].
  cbn [mbind option_bind]. apply IH. lia.
Qed.

(** X3. Only the first [layers] entries of [hx] are read: entries beyond
    them do not change the result. *)
Theorem forward_ignores_extra_hx (self : MultilayerLSTMCell) (x : T2)
    (hx extra : list entry) :
  length hx = layers self →
  MultilayerLSTMCell_forward self x (Some (hx ++ extra))
  = MultilayerLSTMCell_forward self x (Some hx).
Proof.
  intros Hlen. unfold MultilayerLSTMCell_forward. simpl.
  rewrite (layer_loop_take self x (hx ++ extra)) by lia.
  by rewrite <- Hlen, take_app_length.
Qed.

(** ** Further properties of the driver *)

Lemma time_loop_ext (cell : MultilayerLSTMCell) (input1 input2 : T3)
    (reset1 reset2 : option T2) (ts : list nat) :
  (∀ t st, t ∈ ts →
     time_step cell input1 reset1 st t = time_step cell input2 reset2 st t) →
  ∀ st, time_loop cell input1 reset1 ts st = time_loop cell input2 reset2 ts st.
Proof.
  induction ts as [|t ts IH]; intros Hstep st; [done|].
  cbn [time_loop]. rewrite Hstep by apply list_elem_of_here.
  destruct (time_step cell input2 reset2 st t) as [st'|]; [|done].
  cbn [mbind option_bind]. apply IH. intros t' st'' Hin.
  apply Hstep. by apply list_elem_of_further.
Qed.

(** X4. A reset signal none of whose values exceeds [1e-6] is the same as
    no reset signal at all. *)
Theorem reset_below_threshold_is_no_reset (cell : MultilayerLSTMCell)
    (input_ : T3) (reset : T2) (b0 b l n : nat) :
  shape input_ = [b0; l; n] →
  has_shape2 b l reset →
  (∀ i t x, at2 (data reset) i t = Some x → rgtb x reps = false) →
  MultilayerLSTM_forward cell input_ (Some reset)
  = MultilayerLSTM_forward cell input_ None.
Proof.
  intros Hs Hr Hlow. unfold MultilayerLSTM_forward. rewrite Hs. simpl.
  rewrite (time_loop_ext cell input_ input_ (Some reset) None (seq 0 l));
    [done|].
  intros t st Hin. apply elem_of_seq in Hin. unfold time_step.
  destruct (select1 input_ t) as [x|]; [|done]. cbn [mbind option_bind].
  destruct (MultilayerLSTMCell_forward cell x _) as [hx|]; [|done].
  cbn [mbind option_bind].
  destruct (stack_hidden hx) as [o|]; [|done]. cbn [mbind option_bind].
  assert (apply_reset (Some reset) t hx = Some hx) as ->; [|done].
  unfold apply_reset.
  destruct (reset_col_spec reset b l t Hr) as (-> & _ & Hcol); [lia|].
  cbn [mbind option_bind]. rewrite any_gt_eps_col.
  destruct (col_any_gt (reset_col reset t)) eqn:Hany; [|done].
  apply col_any_gt_true in Hany as (i & x' & Hi & Hgt).
  rewrite Hcol in Hi. by rewrite (Hlow _ _ _ Hi) in Hgt.
Qed.

Lemma time_step_reset_out_of_range (cell : MultilayerLSTMCell) (input_ : T3)
    (reset : T2) (b l t : nat) st :
  shape reset = [b; l] → l ≤ t →
  time_step cell input_ (Some reset) st t = None.
Proof.
  intros Hs Ht. unfold time_step.
  destruct (select1 input_ t) as [x|]; [|done]. cbn [mbind option_bind].
  destruct (MultilayerLSTMCell_forward cell x _) as [hx|]; [|done].
  cbn [mbind option_bind].
  destruct (stack_hidden hx) as [o|]; [|done]. cbn [mbind option_bind].
  unfold apply_reset, select_col. rewrite Hs.
  by rewrite option_guard_False by lia.
Qed.

(** X5. A reset signal with fewer timesteps than the input sequence is an
    error: [reset[:, t, None]] is out of range at the first missing
    timestep. *)
Theorem forward_short_reset_fails (cell : MultilayerLSTMCell)
    (input_ : T3) (reset : T2) (b0 b l l' n : nat) :
  shape input_ = [b0; l; n] →
  shape reset = [b; l'] →
  l' < l →
  MultilayerLSTM_forward cell input_ (Some reset) = None.
Proof.
  intros Hs Hr Hlt. unfold MultilayerLSTM_forward. rewrite Hs. simpl.
  replace l with (l' + S (l - l' - 1)) by lia.
  rewrite seq_app, time_loop_app. simpl.
  destruct (time_loop cell input_ (Some reset) (seq 0 l') (None, []))
    as [st|]; [|done].
  cbn [mbind option_bind].
  by rewrite (time_step_reset_out_of_range cell input_ reset b l' l' st).
Qed.

(** X6. A cell without layers returns the empty list, and the driver then
    fails on every input: there is nothing to stack. *)
Theorem zero_layers_fail (cell : MultilayerLSTMCell) (x : T2)
    (hx : option (list entry)) (input_ : T3) (reset : option T2) :
  layers cell = 0 →
  MultilayerLSTMCell_forward cell x hx = Some []
  ∧ MultilayerLSTM_forward cell input_ reset = None.
Proof.
  intros HL. split.
  - unfold MultilayerLSTMCell_forward. by rewrite HL.
  - unfold MultilayerLSTM_forward.
    destruct (shape input_ !! 1) as [[|l]|]; [done| |done].
    cbn [mbind option_bind seq time_loop]. unfold time_step at 1.
    destruct (select1 input_ 0) as [x0|]; [|done]. cbn [mbind option_bind].
    unfold MultilayerLSTMCell_forward. rewrite HL. done.
Qed.

Lemma run_to_agree_prefix (cell : MultilayerLSTMCell) (input1 input2 : T3)
    (reset1 reset2 : option T2) (t : nat) :
  inputs_agree_upto t input1 input2 →
  resets_agree_before t reset1 reset2 →
  ∀ t', t' ≤ t →
    run_to cell input1 reset1 t' = run_to cell input2 reset2 t'.
Proof.
  intros Hin Hre t' Ht'. unfold run_to. apply time_loop_ext.
  intros u st Hu. apply elem_of_seq in Hu. unfold time_step.
  rewrite (Hin u) by lia.
  destruct (select1 input2 u) as [x|]; [|done]. cbn [mbind option_bind].
  destruct (MultilayerLSTMCell_forward cell x _) as [hx|]; [|done].
  cbn [mbind option_bind].
  destruct (stack_hidden hx) as [o|]; [|done]. cbn [mbind option_bind].
  assert (apply_reset reset1 u hx = apply_reset reset2 u hx) as ->; [|done].
  destruct reset1 as [r1|], reset2 as [r2|]; try done.
  unfold apply_reset. by rewrite (Hre u) by lia.
Qed.

(** X7. No lookahead: the stack computed at timestep [t], and with it the
    output at timestep [t], depend only on the inputs at timesteps up to
    [t] and on the resets before [t]. *)
Theorem forward_no_lookahead
    (input_size hid L : nat) (eli uph : bool)
    (kernels : nat → list R → list R → list R → list R * list R)
    (b l1 l2 t : nat) (input1 input2 : T3) (reset1 reset2 : option T2) :
  kernels_ok input_size hid L eli uph kernels →
  1 ≤ L →
  has_shape3 b l1 input_size input1 →
  has_shape3 b l2 input_size input2 →
  reset_ok b l1 reset1 →
  reset_ok b l2 reset2 →
  t < l1 → t < l2 →
  inputs_agree_upto t input1 input2 →
  resets_agree_before t reset1 reset2 →
  ∃ out1 out2,
    MultilayerLSTM_forward
      (MultilayerLSTMCell_init input_size hid L eli uph kernels)
      input1 reset1 = Some out1
    ∧ MultilayerLSTM_forward
        (MultilayerLSTMCell_init input_size hid L eli uph kernels)
        input2 reset2 = Some out2
    ∧ ∀ t' i k, t' ≤ t →
        new_stack (MultilayerLSTMCell_init input_size hid L eli uph kernels)
          input1 reset1 t'
        = new_stack (MultilayerLSTMCell_init input_size hid L eli uph kernels)
            input2 reset2 t'
        ∧ at3 (data out1) i t' k = at3 (data out2) i t' k.
Proof.
  intros Hk HL Hin1 Hin2 Hr1 Hr2 Ht1 Ht2 Hin Hre.
  destruct (forward_output input_size hid L eli uph kernels Hk HL
              b l1 input1 reset1 Hin1 Hr1) as (out1 & Ho1 & _ & Hat1); [lia|].
  destruct (forward_output input_size hid L eli uph kernels Hk HL
              b l2 input2 reset2 Hin2 Hr2) as (out2 & Ho2 & _ & Hat2); [lia|].
  exists out1, out2. split; [done|]. split; [done|].
  intros t' i k Ht'.
  assert (Hnew : new_stack
            (MultilayerLSTMCell_init input_size hid L eli uph kernels)
            input1 reset1 t'
          = new_stack
              (MultilayerLSTMCell_init input_size hid L eli uph kernels)
              input2 reset2 t').
  { unfold new_stack, carried.
    rewrite (run_to_agree_prefix _ input1 input2 reset1 reset2 t Hin Hre t')
      by done.
    by rewrite (Hin t') by done. }
  split; [done|]. rewrite Hat1, Hat2 by lia. by rewrite Hnew.
Qed.

(** ** The driver and the objects of its caller *)

Lemma fresh_not_allocated (σ : store) (p : loc) :
  is_Some (σ !! p) → p ≠ fresh (dom σ).
Proof.
  intros Hp ->. apply elem_of_dom in Hp. by apply is_fresh in Hp.
Qed.

(** One turn of the loop over the timesteps: the store afterwards is a
    store that agrees with the old one on every old object, plus the list
    the cell returned, holding the state after the reset. *)
Lemma time_step_st_explicit (cell : MultilayerLSTMCell) (input_ : T3)
    (reset : option T2) (t : nat) (s : option loc * list T4)
    (s' : option (list (T2 * T2)) * list T4) (σ : store) :
  st_rel σ s s' →
  ∃ q σa,
    (∀ p, is_Some (σ !! p) → σa !! p = σ !! p ∧ p ≠ q)
    ∧ time_step_st cell input_ reset s t σ
      = time_step cell input_ reset s' t
        ≫= (λ r', r'.1 ≫= (λ hx' : list (T2 * T2),
              Some ((Some q, r'.2),
                    <[q := (Some <$> hx' : list entry)]> σa))).
Proof.
  intros [Houts Hst].
  assert (∃ q σa,
    (∀ p, is_Some (σ !! p) → σa !! p = σ !! p ∧ p ≠ q)
    ∧ ∀ x, MultilayerLSTMCell_forward_st cell x s.1 σ
      = MultilayerLSTMCell_forward cell x
          ((λ l : list (T2 * T2), Some <$> l) <$> s'.1)
        ≫= (λ outs : list (T2 * T2),
              Some (q, <[q := (Some <$> outs : list entry)]> σa)))
    as (q & σa & Hframe & Hfwd).
  { destruct s.1 as [p|], s'.1 as [hx|]; try done.
    - exists (fresh (dom σ)), σ. split.
      + intros p' Hp'. split; [done|]. by apply fresh_not_allocated.
      + intros x. by apply forward_st_some.
    - set (σ1 := <[fresh (dom σ) := replicate (layers cell) None]> σ).
      exists (fresh (dom σ1)), σ1. split.
      + intros p' Hp'.
        assert (p' ≠ fresh (dom σ)) by by apply fresh_not_allocated.
        assert (σ1 !! p' = σ !! p') as Heq by by apply lookup_insert_ne.
        split; [done|]. apply fresh_not_allocated. by rewrite Heq.
      + intros x. simpl. rewrite forward_st_none. cbn zeta. reflexivity. }
  exists q, σa. split; [done|].
  unfold time_step, time_step_st. rewrite lift_bind.
  destruct (select1 input_ t) as [x|]; [|done]. cbn [mbind option_bind].
  rewrite M_bind_unfold, Hfwd.
  destruct (MultilayerLSTMCell_forward cell x _) as [outs|]; [|done].
  cbn [mbind option_bind]. rewrite M_bind_unfold. unfold read_list at 1.
  rewrite lookup_insert_eq. cbn [mbind option_bind].
  rewrite lift_bind. rewrite mapM_fmap_Some by done.
  rewrite lift_bind. destruct (stack_hidden outs) as [o|]; [|done].
  cbn [mbind option_bind]. rewrite M_bind_unfold.
  rewrite (apply_reset_st_spec reset t q outs) by apply lookup_insert_eq.
  destruct (apply_reset reset t outs) as [hx'|]; [|done].
  cbn [mbind option_bind fst snd]. unfold mret, M_ret.
  by rewrite insert_insert_eq, Houts.
Qed.

Lemma time_loop_st_frame (cell : MultilayerLSTMCell) (input_ : T3)
    (reset : option T2) (ts : list nat) :
  ∀ (s : option loc * list T4) (s' : option (list (T2 * T2)) * list T4)
    (σ : store) r σ',
    st_rel σ s s' →
    time_loop_st cell input_ reset ts s σ = Some (r, σ') →
    ∀ p, is_Some (σ !! p) → σ' !! p = σ !! p.
Proof.
  induction ts as [|t ts IH]; intros s s' σ r σ' Hrel Hrun p Hp.
  - simpl in Hrun. unfold mret, M_ret in Hrun. by injection Hrun as _ <-.
  - cbn [time_loop_st] in Hrun. rewrite M_bind_unfold in Hrun.
    destruct (time_step_st_explicit cell input_ reset t s s' σ Hrel)
      as (q & σa & Hframe & Hstep).
    rewrite Hstep in Hrun.
    destruct (time_step cell input_ reset s' t) as [[[hx'|] outs]|];
      try done.
    cbn [mbind option_bind fst snd] in Hrun.
    destruct (Hframe p Hp) as [Hpa Hpq].
    assert (Hrel' : st_rel (<[q := (Some <$> hx' : list entry)]> σa)
                      (Some q, outs) (Some hx', outs)).
    { split; [done|]. simpl. apply lookup_insert_eq. }
    rewrite (IH _ _ _ r σ' Hrel' Hrun p).
    + rewrite lookup_insert_ne by done. exact Hpa.
    + rewrite lookup_insert_ne by done. by rewrite Hpa.
Qed.

(** X8. [MultilayerLSTM.forward] has no effect on the list objects that
    exist when it is called: it assigns only into lists the cell allocated
    during the run. *)
Theorem forward_leaves_store_unchanged
    (input_size hid L : nat) (eli uph : bool)
    (kernels : nat → list R → list R → list R → list R * list R)
    (b l : nat) (input_ : T3) (reset : option T2) (σ : store) :
  kernels_ok input_size hid L eli uph kernels →
  1 ≤ L → 1 ≤ l →
  has_shape3 b l input_size input_ →
  reset_ok b l reset →
  ∃ out σ',
    MultilayerLSTM_forward_st
      (MultilayerLSTMCell_init input_size hid L eli uph kernels)
      input_ reset σ = Some (out, σ')
    ∧ MultilayerLSTM_forward
        (MultilayerLSTMCell_init input_size hid L eli uph kernels)
        input_ reset = Some out
    ∧ ∀ p, is_Some (σ !! p) → σ' !! p = σ !! p.
Proof.
  intros Hk HL Hl Hin Hr.
  destruct (forward_output input_size hid L eli uph kernels Hk HL
              b l input_ reset Hin Hr) as (out & Hout & _); [lia|].
  pose proof (forward_st_output
                (MultilayerLSTMCell_init input_size hid L eli uph kernels)
                input_ reset σ) as Hst.
  rewrite Hout in Hst.
  destruct (MultilayerLSTM_forward_st _ input_ reset σ) as [[o σ']|] eqn:Hrun;
    [|done].
  injection Hst as ->. exists out, σ'. split; [done|]. split; [done|].
  intros p Hp. unfold MultilayerLSTM_forward_st in Hrun.
  rewrite lift_bind in Hrun. destruct Hin as [Hs _]. rewrite Hs in Hrun.
  cbn [lookup list_lookup] in Hrun. rewrite M_bind_unfold in Hrun.
  destruct (time_loop_st _ input_ reset (seq 0 l) (None, []) σ)
    as [[r σ1]|] eqn:Hloop; [|done].
  unfold lift in Hrun.
  destruct (cat_list cat4_dim1 r.2); [|done].
  cbn [mbind option_bind] in Hrun. injection Hrun as _ <-.
  by apply (time_loop_st_frame _ input_ reset (seq 0 l) (None, []) (None, [])
              σ r σ1 (conj eq_refl I) Hloop).
Qed.

End props.

(** * Concrete runs *)

#[export] Instance Qc_scalar_laws : ScalarLaws Qc.
Proof.
  split.
  - intros x. change (x * (1 - 0) = x)%Qc. ring.
  - reflexivity.
Qed.

Lemma affine_kernel_ok (i n hid : nat) : kernel_ok n hid (affine_kernel i).
Proof.
  intros x h c _ _ Hc. unfold affine_kernel. simpl.
  by rewrite !length_fmap.
Qed.

Lemma affine_kernels_ok (input_size hid L : nat) (eli uph : bool) :
  kernels_ok input_size hid L eli uph affine_kernel.
Proof. intros i _. apply affine_kernel_ok. Qed.

Ltac shape_tac :=
  repeat first [ split | constructor | reflexivity ].

Ltac qc_eq :=
  repeat f_equal; apply Qc_is_canon; reflexivity.

Lemma MultilayerLSTM_forward_shape_witness :
  ∃ out,
    MultilayerLSTM_forward demo_cell demo_input (Some demo_reset) = Some out
    ∧ shape out = [2; 3; 2; 4]
    ∧ rect4 2 3 2 4 (data out)
    ∧ ∀ t i k, t < 3 →
        at3 (data out) i t k
        = new_stack demo_cell demo_input (Some demo_reset) t
            ≫= (λ new, new !! k ≫= (λ hc, data hc.1 !! i)).
Proof.
  apply (MultilayerLSTM_forward_shape 3 4 2 true true affine_kernel 2 3
           demo_input (Some demo_reset)).
  - apply affine_kernels_ok.
  - lia.
  - shape_tac.
  - shape_tac.
  - lia.
Defined.

Lemma init_input_widths_witness :
  cell_input_size <$> lstm_cells demo_cell !! 1 = Some 7.
Proof.
  apply (init_input_widths 3 4 2 true true affine_kernel 1). lia.
Defined.

(** C4 as stated fails: with [use_previous_higher] and two layers, the unit
    of layer 0 is built for width [input_size + hidden_size = 7], not
    [input_size = 3]. *)
Lemma layer0_width_counterexample :
  cell_input_size
    <$> lstm_cells (MultilayerLSTMCell_init 3 4 2 false true affine_kernel) !! 0
  = Some 7
  ∧ cell_input_size
      <$> lstm_cells (MultilayerLSTMCell_init 3 4 2 false true affine_kernel)
            !! 0
    ≠ Some 3.
Proof. split; [reflexivity|]. vm_compute. discriminate. Qed.

Lemma prev_higher_absent_is_zero_witness :
  prev_higher demo_cell (replicate (layers demo_cell) None) 0 demo_x0
  = Some (new_zeros 2 (hidden_size demo_cell))
  ∧ shape (new_zeros (R:=Qc) 2 (hidden_size demo_cell))
    = [2; hidden_size demo_cell]
  ∧ data (new_zeros 2 (hidden_size demo_cell))
    = replicate 2 (replicate (hidden_size demo_cell) rzero)
  ∧ layer_input demo_cell demo_x0 (replicate (layers demo_cell) None) 0
      demo_x0
    = cat1 demo_x0 (new_zeros 2 (hidden_size demo_cell))
  ∧ cat1 demo_x0 (new_zeros 2 (hidden_size demo_cell))
    = Some (mkTensor [2; 3 + hidden_size demo_cell]
              (zip_with app (data demo_x0)
                 (replicate 2 (replicate (hidden_size demo_cell) rzero))))
  ∧ MultilayerLSTMCell_forward demo_cell demo_x0 None
    = layer_loop demo_cell demo_x0 (replicate (layers demo_cell) None)
        (seq 0 (layers demo_cell)) demo_x0 [].
Proof.
  apply (prev_higher_absent_is_zero demo_cell demo_x0 demo_x0 demo_x0 0 2 3).
  - reflexivity.
  - simpl. lia.
  - reflexivity.
  - reflexivity.
Defined.

Lemma forward_returns_layers_pairs_witness :
  (∃ outs,
     MultilayerLSTMCell_forward demo_cell demo_x0 None = Some outs
     ∧ length outs = 2
     ∧ Forall (state_ok 2 4) outs
     ∧ ∀ j, j < 2 →
         ∃ rec, match j with
                | 0 => Some demo_x0
                | S j' => fst <$> outs !! j'
                end = Some rec
                ∧ layer_step demo_cell demo_x0
                    (default (replicate 2 None) None) j rec = outs !! j
                ∧ is_Some (outs !! j))
  ∧ (∃ stack,
       carried demo_cell demo_input (Some demo_reset) 2 = Some (Some stack)
       ∧ length stack = 2
       ∧ Forall (state_ok 2 4) stack).
Proof.
  apply (forward_returns_layers_pairs 3 4 2 true true affine_kernel 2
           demo_x0 None 3 2 demo_input (Some demo_reset)).
  - apply affine_kernels_ok.
  - shape_tac.
  - exact I.
  - lia.
  - shape_tac.
  - shape_tac.
  - lia.
Defined.

Lemma reset_scales_whole_batch_witness :
  ∃ new stack,
    new_stack demo_cell demo_input (Some demo_reset) 1 = Some new
    ∧ carried demo_cell demo_input (Some demo_reset) 2 = Some (Some stack)
    ∧ length new = 2 ∧ length stack = 2
    ∧ ((∃ i x, at2 (data demo_reset) i 1 = Some x ∧ rgtb x reps = true) →
       ∀ k hc i hrow crow x,
         new !! k = Some hc →
         data hc.1 !! i = Some hrow → data hc.2 !! i = Some crow →
         at2 (data demo_reset) i 1 = Some x →
         ∃ hc', stack !! k = Some hc'
           ∧ shape hc'.1 = [2; 4] ∧ shape hc'.2 = [2; 4]
           ∧ data hc'.1 !! i = Some ((λ v, rmul v (rsub rone x)) <$> hrow)
           ∧ data hc'.2 !! i = Some ((λ v, rmul v (rsub rone x)) <$> crow))
    ∧ ((∀ i x, at2 (data demo_reset) i 1 = Some x → rgtb x reps = false) →
       stack = new).
Proof.
  apply (reset_scales_whole_batch 3 4 2 true true affine_kernel 2 3 1
           demo_input demo_reset).
  - apply affine_kernels_ok.
  - lia.
  - shape_tac.
  - shape_tac.
  - lia.
Defined.

Lemma reset_one_zeroes_state_witness :
  ∃ new stack out,
    new_stack demo_cell demo_input (Some demo_reset) 1 = Some new
    ∧ carried demo_cell demo_input (Some demo_reset) 2 = Some (Some stack)
    ∧ length new = 2 ∧ length stack = 2
    ∧ (∀ k hc', stack !! k = Some hc' →
         ∃ hc hrow crow,
           new !! k = Some hc
           ∧ data hc.1 !! 0 = Some hrow ∧ length hrow = 4
           ∧ data hc.2 !! 0 = Some crow ∧ length crow = 4
           ∧ data hc'.1 !! 0
             = Some ((λ v, rmul v (rsub rone rone)) <$> hrow)
           ∧ data hc'.2 !! 0
             = Some ((λ v, rmul v (rsub rone rone)) <$> crow)
           ∧ (Forall zeroed_by_one hrow →
              data hc'.1 !! 0 = Some (replicate 4 rzero))
           ∧ (Forall zeroed_by_one crow →
              data hc'.2 !! 0 = Some (replicate 4 rzero)))
    ∧ MultilayerLSTM_forward demo_cell demo_input (Some demo_reset) = Some out
    ∧ ∀ k, at3 (data out) 0 1 k = new !! k ≫= (λ hc, data hc.1 !! 0).
Proof.
  apply (reset_one_zeroes_state 3 4 2 true true affine_kernel 2 3 1 0
           demo_input demo_reset).
  - apply affine_kernels_ok.
  - lia.
  - shape_tac.
  - shape_tac.
  - lia.
  - lia.
  - reflexivity.
Defined.

(** C1 as stated fails: [reset[0, 0] = 0.5] exceeds [1e-6], and the state
    carried into timestep 1 for element 0 is half the new state, not zero. *)
Lemma reset_half_counterexample :
  ∃ stack hc,
    at2 (data half_reset) 0 0 = Some (qc 1 2)
    ∧ rgtb (qc 1 2) reps = true
    ∧ carried small_cell small_input (Some half_reset) 1 = Some (Some stack)
    ∧ stack !! 0 = Some hc
    ∧ data hc.1 !! 0 = Some [qc 1 4]
    ∧ data hc.2 !! 0 = Some [qc 1 2]
    ∧ data hc.1 !! 0 ≠ Some (replicate 1 rzero).
Proof.
  eexists _, _. split; [reflexivity|]. split; [reflexivity|].
  split; [vm_compute; reflexivity|]. split; [reflexivity|].
  split; [simpl; qc_eq|]. split; [simpl; qc_eq|].
  simpl. intros Heq. injection Heq as Heq. discriminate.
Qed.

Lemma batch_element_independent_witness :
  ∃ out1 out2,
    MultilayerLSTM_forward demo_cell demo_input (Some demo_reset) = Some out1
    ∧ MultilayerLSTM_forward demo_cell demo_input (Some demo_reset_other)
      = Some out2
    ∧ data out1 !! 0 = data out2 !! 0
    ∧ ∀ t, t ≤ 3 →
        ∃ s1 s2,
          carried demo_cell demo_input (Some demo_reset) t = Some s1
          ∧ carried demo_cell demo_input (Some demo_reset_other) t = Some s2
          ∧ option_Forall2 (stack_eq 0) s1 s2.
Proof.
  apply (batch_element_independent 3 4 2 true true affine_kernel 0 2 2 3
           demo_input demo_input (Some demo_reset) (Some demo_reset_other)).
  - apply affine_kernels_ok.
  - lia.
  - lia.
  - lia.
  - lia.
  - shape_tac.
  - shape_tac.
  - shape_tac.
  - shape_tac.
  - reflexivity.
  - constructor. reflexivity.
  - intros r t x Hr Hx. injection Hr as <-.
    destruct t as [|[|[|t]]]; simpl in Hx; [| | |discriminate];
      injection Hx as <-; [left|right|left]; reflexivity.
Defined.

(** C2 as stated fails: the two runs agree on element 0 (same inputs, same
    resets, [reset[0, 0] = 1e-7]) and differ only in whether element 1 is
    reset at timestep 0; yet the output of element 0 at timestep 1
    differs. *)
Lemma tiny_reset_counterexample :
  ∃ out_a out_b,
    MultilayerLSTM_forward small_cell small_input (Some tiny_reset_a)
    = Some out_a
    ∧ MultilayerLSTM_forward small_cell small_input (Some tiny_reset_b)
      = Some out_b
    ∧ data tiny_reset_a !! 0 = data tiny_reset_b !! 0
    ∧ at3 (data out_a) 0 1 0 = Some [qc 49999997 40000000]
    ∧ at3 (data out_b) 0 1 0 = Some [qc 5 4]
    ∧ data out_a !! 0 ≠ data out_b !! 0.
Proof.
  eexists _, _. split; [vm_compute; reflexivity|].
  split; [vm_compute; reflexivity|]. split; [reflexivity|].
  split; [unfold at3, at2; simpl; qc_eq|].
  split; [unfold at3, at2; simpl; qc_eq|].
  simpl. intros Heq. injection Heq as Heq. discriminate.
Qed.

Lemma forward_leaves_hx_unchanged_witness :
  ∃ q outs σ',
    MultilayerLSTMCell_forward_st demo_cell demo_x0 (Some 1%positive)
      demo_store
    = Some (q, σ')
    ∧ σ' !! 1%positive = Some demo_hx
    ∧ demo_store !! q = None
    ∧ q ≠ 1%positive
    ∧ σ' !! q = Some (Some <$> outs)
    ∧ (∀ p', p' ≠ q → σ' !! p' = demo_store !! p')
    ∧ MultilayerLSTMCell_forward demo_cell demo_x0 (Some demo_hx)
      = Some outs.
Proof.
  apply (forward_leaves_hx_unchanged 3 4 2 true true affine_kernel 2
           demo_x0 1%positive demo_hx demo_store).
  - apply affine_kernels_ok.
  - shape_tac.
  - reflexivity.
  - reflexivity.
  - shape_tac.
Defined.

Lemma forward_deterministic_witness :
  ∃ out σ' σ'',
    MultilayerLSTM_forward_st demo_cell demo_input (Some demo_reset) ∅
    = Some (out, σ')
    ∧ MultilayerLSTM_forward_st demo_cell demo_input (Some demo_reset) σ'
      = Some (out, σ'')
    ∧ MultilayerLSTM_forward demo_cell demo_input (Some demo_reset)
      = Some out.
Proof.
  destruct (forward_deterministic demo_cell demo_input (Some demo_reset) ∅ ∅)
    as (_ & Hagain & Hpure).
  destruct (MultilayerLSTM_forward_st demo_cell demo_input (Some demo_reset) ∅)
    as [[out σ']|] eqn:Hrun; [|vm_compute in Hrun; discriminate].
  destruct (Hagain out σ' eq_refl) as [σ'' Hrun'].
  exists out, σ', σ''. split; [reflexivity|]. split; [exact Hrun'|].
  symmetry. exact Hpure.
Defined.

(** The scenario of the specification: batch 2, length 3, two layers,
    [hidden_size] 4, [input_size] 3, [reset[0, 1] = 1.0] and every other
    reset 0.  The state of element 0 entering timestep 2 is zero in both
    layers; that of element 1 is not. *)
Example scenario_reset_element_0 :
  ∃ stack,
    carried demo_cell demo_input (Some demo_reset) 2 = Some (Some stack)
    ∧ length stack = 2
    ∧ Forall (λ hc, data hc.1 !! 0 = Some (replicate 4 rzero)
                    ∧ data hc.2 !! 0 = Some (replicate 4 rzero)) stack
    ∧ Forall (λ hc, data hc.1 !! 1 ≠ Some (replicate 4 rzero)
                    ∧ data hc.2 !! 1 ≠ Some (replicate 4 rzero)) stack.
Proof.
  eexists. split; [vm_compute; reflexivity|]. split; [reflexivity|].
  split.
  - repeat constructor; simpl; qc_eq.
  - repeat constructor; simpl; intros Heq; injection Heq as Heq; discriminate.
Qed.

(** * The residual network builder *)



















(** A layer of size 0 still gets its one block, which is never [final], and
    the numbering does not advance. *)
Example ResNet_empty_layer :
  (λ net, (λ b, (rb_final b, rb_layer_index b)) <$> ResNet_blocks net)
    <$> ResNet_init 8 [(1, 16, 1); (0, 16, 1)]%Z 0
  = Some [(false, 1%Z); (false, 2%Z)].
Proof. reflexivity. Qed.

(** With [previous_blocks = -1] the first block would get
    [layer_index = 0], and with a layer of size -1 the block after it
    would: line 107 raises. *)
Example ResNet_index_zero :
  ResNet_init 8 [(1, 16, 1)]%Z (-1) = None
  ∧ ResNet_init 8 demo_shrinking_layers 0 = None.
Proof. split; reflexivity. Qed.

(** * Concrete runs of the further properties *)

Lemma forward_zero_state_is_absent_witness :
  MultilayerLSTMCell_forward demo_cell demo_x0
    (Some (replicate 2 (Some (new_zeros 2 4, new_zeros 2 4))))
  = MultilayerLSTMCell_forward demo_cell demo_x0 None.
Proof.
  apply (forward_zero_state_is_absent 3 4 2 true true affine_kernel
           demo_x0 2 3).
  reflexivity.
Defined.

Lemma forward_short_hx_fails_witness :
  MultilayerLSTMCell_forward demo_cell demo_x0 (Some [None]) = None.
Proof.
  apply (forward_short_hx_fails demo_cell demo_x0 [None]). simpl. lia.
Defined.

Lemma forward_ignores_extra_hx_witness :
  MultilayerLSTMCell_forward demo_cell demo_x0 (Some (demo_hx ++ [None]))
  = MultilayerLSTMCell_forward demo_cell demo_x0 (Some demo_hx).
Proof.
  apply (forward_ignores_extra_hx demo_cell demo_x0 demo_hx [None]).
  reflexivity.
Defined.

Lemma reset_below_threshold_is_no_reset_witness :
  MultilayerLSTM_forward demo_cell demo_input (Some demo_low_reset)
  = MultilayerLSTM_forward demo_cell demo_input None.
Proof.
  apply (reset_below_threshold_is_no_reset demo_cell demo_input
           demo_low_reset 2 2 3 3).
  - reflexivity.
  - shape_tac.
  - intros i t x Hx.
    destruct i as [|[|i]]; destruct t as [|[|[|t]]];
      try discriminate Hx; injection Hx as <-; reflexivity.
Defined.

Lemma forward_short_reset_fails_witness :
  MultilayerLSTM_forward demo_cell demo_input (Some half_reset) = None.
Proof.
  apply (forward_short_reset_fails demo_cell demo_input half_reset 2 2 3 2 3).
  - reflexivity.
  - reflexivity.
  - lia.
Defined.

Lemma zero_layers_fail_witness :
  MultilayerLSTMCell_forward
    (MultilayerLSTMCell_init 3 4 0 true true affine_kernel) demo_x0 None
  = Some []
  ∧ MultilayerLSTM_forward
      (MultilayerLSTMCell_init 3 4 0 true true affine_kernel)
      demo_input None = None.
Proof.
  apply (zero_layers_fail
           (MultilayerLSTMCell_init 3 4 0 true true affine_kernel)
           demo_x0 None demo_input None).
  reflexivity.
Defined.

Lemma forward_no_lookahead_witness :
  ∃ out1 out2,
    MultilayerLSTM_forward demo_cell demo_input (Some demo_reset) = Some out1
    ∧ MultilayerLSTM_forward demo_cell demo_input_late
        (Some demo_reset_late) = Some out2
    ∧ ∀ t' i k, t' ≤ 1 →
        new_stack demo_cell demo_input (Some demo_reset) t'
        = new_stack demo_cell demo_input_late (Some demo_reset_late) t'
        ∧ at3 (data out1) i t' k = at3 (data out2) i t' k.
Proof.
  apply (forward_no_lookahead 3 4 2 true true affine_kernel 2 3 3 1
           demo_input demo_input_late (Some demo_reset)
           (Some demo_reset_late)).
  - apply affine_kernels_ok.
  - lia.
  - shape_tac.
  - shape_tac.
  - shape_tac.
  - shape_tac.
  - lia.
  - lia.
  - intros t' Ht'. destruct t' as [|[|t']]; [reflexivity|reflexivity|lia].
  - intros t' Ht'. destruct t' as [|t']; [reflexivity|lia].
Defined.

Lemma forward_leaves_store_unchanged_witness :
  ∃ out σ',
    MultilayerLSTM_forward_st demo_cell demo_input (Some demo_reset)
      demo_store = Some (out, σ')
    ∧ MultilayerLSTM_forward demo_cell demo_input (Some demo_reset)
      = Some out
    ∧ ∀ p, is_Some (demo_store !! p) → σ' !! p = demo_store !! p.
Proof.
  apply (forward_leaves_store_unchanged 3 4 2 true true affine_kernel 2 3
           demo_input (Some demo_reset) demo_store).
  - apply affine_kernels_ok.
  - lia.
  - lia.
  - shape_tac.
  - shape_tac.
Defined.

Lemma forward_empty_sequence_witness :
  MultilayerLSTM_forward demo_cell
    (mkTensor [2; 0; 3] [ []; [] ]) (Some demo_reset) = None.
Proof.
  apply (forward_empty_sequence demo_cell _ (Some demo_reset) 2 3).
  reflexivity.
Defined.

(** * The probability utilities *)

Section gaussian_props.
Context {F : Type} `{FloatOps F}.

Lemma broadcast_same (f : F → F → F) (a b : list F) :
  length a = length b → broadcast f a b = Some (zip_with f a b).
Proof. intros Hl. unfold broadcast. by rewrite decide_True. Qed.

Lemma broadcast_one_r (f : F → F → F) (a : list F) (y : F) :
  broadcast f a [y] = Some (zip_with f a (replicate (length a) y)).
Proof.
  unfold broadcast. destruct (decide _) as [Hd|Hd].
  - destruct a as [|x [|x' a]]; done.
  - destruct a as [|x [|x' a]]; [done|done|]. f_equal.
    generalize (x :: x' :: a). intros k.
    induction k as [|z k IH]; [done|]. cbn. by rewrite IH.
Qed.

Lemma add__same (a b : list F) :
  length b = length a → add_ a b = Some (zip_with f_add a b).
Proof. intros Hl. unfold add_. by rewrite decide_True. Qed.

Lemma kl_div_gaussian_same (q_mu q_logvar p_mu p_logvar : list F) :
  length q_logvar = length q_mu → length p_mu = length q_mu →
  length p_logvar = length q_mu →
  kl_div_gaussian q_mu q_logvar (Some p_mu) (Some p_logvar)
  = Some (f_sum (f_mul f_neg_half <$>
      zip_with f_sub
        (zip_with f_sub
           (f_add f_one <$> zip_with f_sub q_logvar p_logvar)
           (f_exp <$> zip_with f_sub q_logvar p_logvar))
        (zip_with f_div (f_square <$> zip_with f_sub q_mu p_mu)
                        (f_exp <$> p_logvar)))).
Proof.
  intros H1 H2 H3. unfold kl_div_gaussian.
  cbn [mbind option_bind fst snd].
  rewrite (broadcast_same _ q_logvar) by lia. cbn [mbind option_bind].
  rewrite (broadcast_same _ q_mu) by lia. cbn [mbind option_bind].
  rewrite (broadcast_same f_div)
    by (rewrite !length_fmap, length_zip_with; lia).
  cbn [mbind option_bind].
  rewrite (broadcast_same _ (_ <$> _) (f_exp <$> _))
    by (by rewrite !length_fmap).
  cbn [mbind option_bind].
  rewrite broadcast_same
    by (rewrite !length_zip_with, !length_fmap, !length_zip_with; lia).
  done.
Qed.

(** X21. Without a prior, [kl_div_gaussian] measures against the standard
    normal: the result is that for a prior of mean 0 and log-variance 0 at
    every element. *)
Theorem kl_div_gaussian_default_prior (q_mu q_logvar : list F) :
  length q_logvar = length q_mu →
  kl_div_gaussian q_mu q_logvar None None
  = kl_div_gaussian q_mu q_logvar
      (Some (replicate (length q_mu) f_zero))
      (Some (replicate (length q_mu) f_zero)).
Proof.
  intros Hl. unfold kl_div_gaussian.
  cbn [tensor_or mbind option_bind fst snd].
  rewrite (broadcast_same _ q_logvar (replicate _ _))
    by (by rewrite length_replicate).
  rewrite (broadcast_same _ q_mu (replicate _ _))
    by (by rewrite length_replicate).
  rewrite !broadcast_one_r, Hl. cbn [mbind option_bind].
  change (f_exp <$> [f_zero]) with [f_exp f_zero].
  rewrite broadcast_one_r.
  rewrite length_fmap, length_zip_with, length_replicate, Nat.min_id.
  rewrite fmap_replicate.
  by rewrite (broadcast_same f_div)
    by (rewrite length_fmap, length_zip_with, !length_replicate; lia).
Qed.

(** X22. A prior given by halves fails unless the given half has exactly
    one element: with [p_logvar] absent and a [p_mu] of two or more
    elements (or the other way round) [kl_div_gaussian] raises, because
    [p_mu or zero] asks for the truth value of a tensor. *)
Theorem kl_div_gaussian_half_prior (q_mu q_logvar p : list F) :
  1 < length p →
  kl_div_gaussian q_mu q_logvar (Some p) None = None
  ∧ kl_div_gaussian q_mu q_logvar None (Some p) = None.
Proof.
  intros Hp. destruct p as [|v [|v' p]]; cbn in Hp; [lia|lia|]. done.
Qed.

(** X26. The mean is added in place, so it is broadcast to the size of
    [logvar] and never the other way round: a [mu] whose size is neither
    that of [logvar] nor 1 makes [reparameterize_gaussian] raise, also
    when [logvar] has one element. *)
Theorem reparameterize_gaussian_size_error (noise : nat → F)
    (mu logvar : list F) (sample return_eps : bool) :
  length mu ≠ length logvar → length mu ≠ 1 →
  reparameterize_gaussian noise mu logvar sample return_eps = None.
Proof.
  intros Hl H1. unfold reparameterize_gaussian. cbv zeta.
  unfold add_. rewrite decide_False.
  - destruct mu as [|m [|m' mu]]; done.
  - rewrite length_zip_with, length_fmap.
    destruct sample; rewrite ?length_fmap, ?length_seq, ?length_fmap; lia.
Qed.

End gaussian_props.

Lemma zero_times_finite (prec emax : Z) (s : spec_float) :
  is_finite s = true → ∃ sg, SFmul prec emax (S754_zero false) s = S754_zero sg.
Proof. destruct s; try done; by eexists. Qed.

Lemma zero_plus (prec emax : Z) (sg : bool) (m : spec_float) :
  same_number (SFadd prec emax (S754_zero sg) m) m.
Proof.
  destruct m as [s| | |]; try (by left).
  right. destruct sg, s; by eexists _, _.
Qed.

Lemma sub_self (prec emax : Z) (x : spec_float) :
  is_finite x = true → SFsub prec emax x x = S754_zero false.
Proof.
  destruct x as [[]| | |s m e]; try done. intros _.
  unfold SFsub. by rewrite Z.sub_diag.
Qed.

Lemma foldl_add_zeros (prec emax : Z) (l : list spec_float) (s : bool) :
  Forall (λ x, is_zero x = true) l →
  is_zero (foldl (SFadd prec emax) (S754_zero s) l) = true.
Proof.
  intros Hl. revert s. induction Hl as [|x l Hx _ IH]; intros s; [done|].
  destruct x as [s'| | |]; try done. cbn [foldl].
  destruct s, s'; apply IH.
Qed.

(** X20. The divergence of a Gaussian from itself is zero, as long as
    [exp] does not underflow: for finite floats [mu] and [logvar] of one
    size with every [exp(logvar_i)] neither zero nor [nan],
    [kl_div_gaussian mu logvar mu logvar] returns a zero.  It is assumed
    of [exp] that [exp(0.0)] is [1.0], and of [sum] that it adds zeros to
    a zero.  (An [exp(logvar_i)] that underflowed would give [0 / 0],
    which is [nan].) *)
Theorem kl_div_gaussian_self (prec emax : Z)
    (exp : spec_float → spec_float) (sum : list spec_float → spec_float)
    (mu logvar : list spec_float) :
  is_finite (binary_normalize prec emax 1 0 false) = true →
  is_nonzero (binary_normalize prec emax 1 0 false) = true →
  is_finite (binary_normalize prec emax (-1) (-1) false) = true →
  exp (S754_zero false) = binary_normalize prec emax 1 0 false →
  (∀ l, Forall (λ x, is_zero x = true) l → is_zero (sum l) = true) →
  length logvar = length mu →
  Forall (λ m, is_finite m = true) mu →
  Forall (λ lv, is_finite lv = true ∧ is_nonzero (exp lv) = true) logvar →
  ∃ r, kl_div_gaussian (H := IEEE_float prec emax exp sum)
         mu logvar (Some mu) (Some logvar) = Some r
       ∧ is_zero r = true.
Proof.
  intros Hone Hone' Hhalf Hexp Hsum Hl Hmu Hlv.
  rewrite kl_div_gaussian_same by done.
  eexists. split; [done|]. apply Hsum.
  cbn [f_sub f_add f_mul f_div f_square f_exp f_one f_neg_half IEEE_float].
  revert logvar Hl Hlv. induction Hmu as [|m mu Hm _ IH];
    intros [|lv logvar] Hl Hlv; try done; try (by constructor).
  apply Forall_cons in Hlv as [[Hlv Hex] Hlvs].
  cbn [fmap list_fmap zip_with]. constructor.
  2:{ apply IH; [cbn in Hl; lia|done]. }
  rewrite !sub_self by done. rewrite Hexp.
  set (one := binary_normalize prec emax 1 0 false) in *.
  set (nh := binary_normalize prec emax (-1) (-1) false) in *.
  clearbody one nh.
  assert (SFadd prec emax one (S754_zero false) = one) as ->
    by (by destruct one).
  rewrite sub_self by done.
  destruct (exp lv) as [|[]| |[] me ee]; try done;
    destruct nh as [[]| | |[] ? ?]; done.
Qed.

(** X25. Without sampling, [reparameterize_gaussian] returns the mean
    whenever the standard deviations [exp(0.5 * logvar)] are finite: for
    floats [mu] and [logvar] of one size, element [i] of the result is
    [mu_i] (a zero for a zero), and the noise returned with it is all
    zeros.  A standard deviation that overflowed would give
    [0 * inf = nan] instead. *)
Theorem reparameterize_gaussian_no_sample (prec emax : Z)
    (exp : spec_float → spec_float) (sum : list spec_float → spec_float)
    (noise : nat → spec_float) (mu logvar : list spec_float)
    (return_eps : bool) :
  length mu = length logvar →
  Forall (λ lv, is_finite
                  (exp (SFmul prec emax (binary_normalize prec emax 1 (-1) false)
                          lv)) = true) logvar →
  ∃ ret,
    reparameterize_gaussian (H := IEEE_float prec emax exp sum)
      noise mu logvar false return_eps
    = Some (ret, if return_eps
                 then Some (replicate (length mu) (S754_zero false))
                 else None)
    ∧ Forall2 same_number ret mu.
Proof.
  intros Hl Hfin. unfold reparameterize_gaussian. cbv zeta.
  rewrite add__same by (rewrite length_zip_with, !length_fmap; lia).
  cbn [mbind option_bind]. eexists. split.
  - f_equal. f_equal. destruct return_eps; [|done]. f_equal.
    rewrite Hl. clear. induction logvar as [|l logvar IH]; [done|].
    cbn. cbn in IH. by rewrite IH.
  - revert mu Hl. induction Hfin as [|lv logvar Hlv _ IH];
      intros [|m mu] Hl; try done; try (by constructor).
    cbn [fmap list_fmap zip_with].
    constructor; [|apply IH; cbn in Hl; lia].
    change (same_number
              (SFadd prec emax
                 (SFmul prec emax (S754_zero false)
                    (exp (SFmul prec emax
                            (binary_normalize prec emax 1 (-1) false) lv)))
                 m) m).
    destruct (zero_times_finite prec emax _ Hlv) as [sg ->].
    apply zero_plus.
Qed.

(** ** Concrete runs of the probability utilities *)

Lemma kl_div_gaussian_default_prior_witness :
  kl_div_gaussian (H := float32) [f32 1 0; f32 2 0] [f32 0 0; f32 0 0]
    None None
  = kl_div_gaussian (H := float32) [f32 1 0; f32 2 0] [f32 0 0; f32 0 0]
      (Some [f32 0 0; f32 0 0]) (Some [f32 0 0; f32 0 0]).
Proof.
  apply (kl_div_gaussian_default_prior (H := float32)
           [f32 1 0; f32 2 0] [f32 0 0; f32 0 0]).
  reflexivity.
Defined.

Lemma kl_div_gaussian_self_witness :
  ∃ r, kl_div_gaussian (H := float32)
         [f32 1 0; f32 (-3) (-1)] [f32 0 0; f32 0 0]
         (Some [f32 1 0; f32 (-3) (-1)]) (Some [f32 0 0; f32 0 0]) = Some r
       ∧ is_zero r = true.
Proof.
  apply (kl_div_gaussian_self 24 128 exp_at_zero
           (foldl (SFadd 24 128) (S754_zero false))
           [f32 1 0; f32 (-3) (-1)] [f32 0 0; f32 0 0]).
  - reflexivity.
  - reflexivity.
  - reflexivity.
  - reflexivity.
  - intros l. apply foldl_add_zeros.
  - reflexivity.
  - repeat constructor.
  - repeat constructor.
Defined.

(** An [exp] that underflowed: the divergence of a Gaussian from itself is
    [nan]. *)
Example kl_div_gaussian_underflow :
  kl_div_gaussian
    (H := IEEE_float 24 128 (λ _, S754_zero false)
            (foldl (SFadd 24 128) (S754_zero false)))
    [f32 1 0] [f32 (-2000) 0] (Some [f32 1 0]) (Some [f32 (-2000) 0])
  = Some S754_nan.
Proof. reflexivity. Qed.

Lemma kl_div_gaussian_half_prior_witness :
  kl_div_gaussian (H := float32) [f32 1 0; f32 2 0] [f32 0 0; f32 0 0]
    (Some [f32 3 0; f32 4 0]) None = None
  ∧ kl_div_gaussian (H := float32) [f32 1 0; f32 2 0] [f32 0 0; f32 0 0]
      None (Some [f32 3 0; f32 4 0]) = None.
Proof. apply kl_div_gaussian_half_prior. simpl. lia. Defined.

Lemma reparameterize_gaussian_no_sample_witness :
  ∃ ret,
    reparameterize_gaussian (H := float32) (λ _, f32 1 0)
      [f32 1 0; f32 (-3) (-1)] [f32 0 0; f32 0 0] false true
    = Some (ret, Some [S754_zero false; S754_zero false])
    ∧ Forall2 same_number ret [f32 1 0; f32 (-3) (-1)].
Proof.
  apply (reparameterize_gaussian_no_sample 24 128 exp_at_zero _ (λ _, f32 1 0)
           [f32 1 0; f32 (-3) (-1)] [f32 0 0; f32 0 0] true).
  - reflexivity.
  - repeat constructor.
Defined.

Lemma reparameterize_gaussian_size_error_witness :
  reparameterize_gaussian (H := float32) (λ _, f32 1 0)
    [f32 1 0; f32 2 0] [f32 0 0] true false = None.
Proof. apply reparameterize_gaussian_size_error; simpl; lia. Defined.

(** An overflowed standard deviation: the mean is lost, not returned. *)
Example reparameterize_gaussian_overflow :
  reparameterize_gaussian
    (H := IEEE_float 24 128 (λ _, S754_infinity false) (λ _, S754_nan))
    (λ _, f32 1 0) [f32 1 0] [f32 2000 0] false false
  = Some ([S754_nan], None).
Proof. reflexivity. Qed.

(** ** The reset factor in [float32] *)

(** In [float32], multiplication by [1.0 - 1.0] takes exactly the finite
    values to a zero, 0.0 or -0.0; an infinity and [nan] are taken to
    [nan]. *)
Lemma float32_times_zero (x : spec_float) :
  is_zero (@rmul _ float32_scalar x
             (@rsub _ float32_scalar (@rone _ float32_scalar)
                (@rone _ float32_scalar)))
  = is_finite x.
Proof. by destruct x. Qed.

(** 1.5 is taken to 0.0 and -1.5 to -0.0; an infinity and [nan] are not
    [zeroed_by_one]. *)
Example float32_zeroed_by_one :
  @zeroed_by_one _ float32_scalar (f32 3 (-1))
  ∧ @rmul _ float32_scalar (f32 (-3) (-1))
      (@rsub _ float32_scalar (@rone _ float32_scalar)
         (@rone _ float32_scalar))
    = S754_zero true
  ∧ ¬ @zeroed_by_one _ float32_scalar (S754_infinity false)
  ∧ ¬ @zeroed_by_one _ float32_scalar S754_nan.
Proof. repeat split; done. Qed.
